(** * DAOS agent: pluggable authentication, credential cache entries and
      token verification

    A shallow embedding of two Go sources of the DAOS control plane:

    - package [auth] (token verifier, flavor parsing, flavor registry);
    - package [main] of [daos_agent], file [security_rpc.go] (the security
      dRPC module: request decoding, dispatch, credential issuing, cached
      credential entries).

    Go values are modelled as follows.  A [[]byte] is a [list byte] (a nil
    slice and an empty slice are both [[]]); an [int32] or [uint32] is a [Z]
    with the conversions between them written out; a pointer result is an
    [option]; a Go pair [(v, err)] is a Rocq pair whose second component is
    an [option error] ([None] is Go's [nil]); a Go map is a [gmap].  Calls to
    collaborators whose code lives in other packages (protobuf codec, token
    signer, attach-info cache, transport configuration, the concrete
    credential requests) are fields of type classes, so every statement below
    holds for all of their implementations. *)

From Stdlib Require Import ZArith List String Ascii Strings.Byte Bool Lia.
From stdpp Require Import gmap strings list fin_maps pretty.

Local Open Scope string_scope.
Local Open Scope list_scope.
Local Open Scope Z_scope.

(** ** Go runtime values *)

Module Go.

Abbreviation bytes := (list byte).

(** [bytes.Equal]: same length and the same bytes. *)
Fixpoint bytes_Equal (a b : bytes) : bool :=
  match a, b with
  | [], [] => true
  | x :: a', y :: b' => Byte.eqb x y && bytes_Equal a' b'
  | _, _ => false
  end.

(** The failures of package [drpc] that the agent returns. *)
Inductive drpcFailure :=
| UnmarshalingPayloadFailure
| UnknownMethodFailure
| MarshalingFailure.

(** Go [error] values as the two sources build them. *)
Inductive error :=
| errors_New (msg : string)
| errors_WithMessage (cause : error) (msg : string)
| daos_Status (code : Z)
| drpc_Failure (f : drpcFailure).

(** [errors.Wrap(err, msg)]: nil stays nil. *)
Definition errors_Wrap (err : option error) (msg : string) : option error :=
  match err with
  | None => None
  | Some e => Some (errors_WithMessage e msg)
  end.

Definition drpcFailure_eqb (a b : drpcFailure) : bool :=
  match a, b with
  | UnmarshalingPayloadFailure, UnmarshalingPayloadFailure => true
  | UnknownMethodFailure, UnknownMethodFailure => true
  | MarshalingFailure, MarshalingFailure => true
  | _, _ => false
  end.

(** Comparison of two error values with [==]. *)
Fixpoint error_eqb (a b : error) : bool :=
  match a, b with
  | errors_New m, errors_New n => String.eqb m n
  | errors_WithMessage c m, errors_WithMessage d n => error_eqb c d && String.eqb m n
  | daos_Status x, daos_Status y => Z.eqb x y
  | drpc_Failure f, drpc_Failure g => drpcFailure_eqb f g
  | _, _ => false
  end.

(** [errors.Is(err, target)]: [err] or an error it wraps equals [target]. *)
Fixpoint errors_Is (err target : error) : bool :=
  error_eqb err target ||
  match err with
  | errors_WithMessage cause _ => errors_Is cause target
  | _ => false
  end.

(** Integer conversions [uint32(x)] and [int32(x)]. *)
Definition to_uint32 (x : Z) : Z := x mod 2 ^ 32.
Definition to_int32 (x : Z) : Z := (x + 2 ^ 31) mod 2 ^ 32 - 2 ^ 31.

(** [slices.Contains] on integers. *)
Fixpoint slices_Contains (s : list Z) (v : Z) : bool :=
  match s with
  | [] => false
  | x :: s' => Z.eqb x v || slices_Contains s' v
  end.

End Go.

(** ** Package [time]

    A [time.Time] is an instant on one time line, counted in nanoseconds
    from Go's zero time (January 1, year 1, 00:00 UTC); a [time.Duration] is
    a signed number of nanoseconds.  [time.Now()] is the clock reading the
    caller passes in. *)

Module time.

Definition Time := Z.
Definition Duration := Z.

Definition Add (t : Time) (d : Duration) : Time := t + d.
Definition After (t u : Time) : bool := u <? t.
Definition IsZero (t : Time) : bool := t =? 0.

End time.

(** ** Package [auth] *)

Module Auth.
Import Go.

(** [auth.Flavor], an [int32] enumeration generated from [auth.proto]. *)
Definition Flavor := Z.

(** The protobuf messages of which the sources read or write fields. *)
Record Token := { Token_Flavor : Flavor; Token_Data : bytes }.
Record AuthArgs := { AuthArgs_Flavor : Flavor; AuthArgs_Data : bytes }.

(** Modelled from the spec: [auth.Credential] is generated code that is not
    among the sources; the spec describes it as an opaque signed payload
    that carries the authenticated identity and a verifier. *)
Record Credential := { Credential_Token : Token; Credential_Verifier : Token }.

Record GetCredResp := { GetCredResp_Status : Z; GetCredResp_Cred : option Credential }.
Record GetValidAuthResp := { GetValidAuthResp_ValidAuthFlavors : list Flavor }.

(** What package [auth] takes from generated code and from the protobuf
    library: the enumeration tables, the constant [Flavor_AUTH_SYS], the
    type [Sys], and the codec on the messages it serialises.
    [proto_Unmarshal_Sys data] is the message after the call together with
    the error the call returned. *)
Class Proto := {
  Sys : Type;
  Flavor_value : gmap string Z;
  Flavor_name : gmap Z string;
  Flavor_AUTH_SYS : Flavor;
  Flavor_String : Flavor → string;
  proto_Marshal_Token : Token → bytes * option error;
  proto_Unmarshal_Sys : bytes → Sys * option error;
}.

(** [security.DefaultTokenSigner()]: the three operations of the signer. *)
Class TokenSigner := {
  Key : Type;
  Hash : bytes → bytes * option error;
  Sign : Key → bytes → bytes * option error;
  Verify : Key → bytes → bytes → option error;
}.

(** Calls on the signer are the cryptographic work of this package; a
    computation records the calls it makes, in order. *)
Inductive SignerCall :=
| CallHash (data : bytes)
| CallSign (data : bytes)
| CallVerify (data sig : bytes).

Definition Traced (A : Type) : Type := list SignerCall * A.

#[export] Instance Traced_ret : MRet Traced := λ A a, ([], a).
#[export] Instance Traced_bind : MBind Traced := λ A B f m,
  let '(t1, a) := m in let '(t2, b) := f a in (t1 ++ t2, b).

Definition calls {A} (m : Traced A) : list SignerCall := m.1.
Definition result {A} (m : Traced A) : A := m.2.

Section Verifier.
Context `{Proto} `{TokenSigner}.

Definition signer_Hash (data : bytes) : Traced (bytes * option error) :=
  ([CallHash data], Hash data).
Definition signer_Sign (key : Key) (data : bytes) : Traced (bytes * option error) :=
  ([CallSign data], Sign key data).
Definition signer_Verify (key : Key) (data sig : bytes) : Traced (option error) :=
  ([CallVerify data sig], Verify key data sig).

(** [VerifierFromToken]; [key] is [None] for a nil key. *)
Definition VerifierFromToken (key : option Key) (token : Token)
  : Traced (bytes * option error) :=
  let '(tokenBytes, err) := proto_Marshal_Token token in
  match err with
  | Some _ => mret ([], errors_Wrap err "unable to marshal Token")
  | None =>
    match key with
    | None => signer_Hash tokenBytes
    | Some k =>
      '(sig, err) ← signer_Sign k tokenBytes;
      mret (sig, errors_Wrap err "signing verifier failed")
    end
  end.

(** [VerifyToken]; the result is the returned error, [None] for nil. *)
Definition VerifyToken (key : option Key) (token : Token) (sig : bytes)
    (validAuthFlavors : list Z) : Traced (option error) :=
  let '(tokenBytes, err) := proto_Marshal_Token token in
  match err with
  | Some _ => mret (errors_Wrap err "unable to marshal Token")
  | None =>
    if negb (slices_Contains validAuthFlavors (to_uint32 (Token_Flavor token))) then
      mret (Some (errors_New "token has authentication flavor not supported by server."))
    else
      match key with
      | None =>
        '(digest, err) ← signer_Hash tokenBytes;
        match err with
        | Some _ => mret err
        | None =>
          if bytes_Equal digest sig then mret None
          else mret (Some (errors_New "unsigned hash failed to verify."))
        end
      | Some k =>
        err ← signer_Verify k tokenBytes sig;
        mret (errors_Wrap err "token verification Failed")
      end
  end.

(** [AuthSysFromAuthToken]. *)
Definition AuthSysFromAuthToken (authToken : Token) : option Sys * option error :=
  if negb (Token_Flavor authToken =? Flavor_AUTH_SYS) then
    (None, Some (errors_New "Attempting to convert an invalid AuthSys Token"))
  else
    let '(sysToken, err) := proto_Unmarshal_Sys (Token_Data authToken) in
    match err with
    | Some e =>
      (None, errors_Wrap err ("unmarshaling " +:+ Flavor_String (Token_Flavor authToken)))
    | None => (Some sysToken, None)
    end.

(** The loop of [ParseValidAuthFlavors]: [i] is the loop index, [rest]
    the strings from index [i] on. *)
Fixpoint ParseValidAuthFlavors_loop (i : nat) (rest : list string)
    (validAuthFlavors : list Z) : list Z * option error :=
  match rest with
  | [] => (validAuthFlavors, None)
  | s :: rest' =>
    match Flavor_value !! ("AUTH_" +:+ s) with
    | None => ([], Some (errors_New ("auth string " +:+ s +:+ " is not recognized")))
    | Some flavor =>
      ParseValidAuthFlavors_loop (S i) rest' (<[i := to_uint32 flavor]> validAuthFlavors)
    end
  end.

Definition ParseValidAuthFlavors (authStrings : list string) : list Z * option error :=
  ParseValidAuthFlavors_loop 0%nat authStrings (replicate (length authStrings) 0).

End Verifier.

(** A function that may panic. *)
Inductive outcome (A : Type) :=
| Returned (a : A)
| Panicked (e : error).
Arguments Returned {A} a.
Arguments Panicked {A} e.

(** The interface [CredentialRequest], on a carrier [R] of request
    objects.  [InitCredentialRequest] updates the request in place and
    returns an error: here it returns the updated request too. *)
Class CredentialRequest (R CredentialConfig Session PrivateKey : Type) := {
  InitCredentialRequest : R → CredentialConfig → Session → bytes → PrivateKey → R * option error;
  GetSignedCredential : R → option Credential * option error;
  CredReqKey : R → string;
}.

(** The interface [CredentialRequestFactory], on a carrier [F]. *)
Class CredentialRequestFactory (F R : Type) := {
  AllocCredentialRequest : F → R;
  GetAuthFlavor : F → Flavor;
}.

Section Registry.
Context `{Proto} {F R : Type} `{CredentialRequestFactory F R}.

(** [generateAuthMap]: the loop over the list, then the function, which
    reads the package variable [CredentialRequests], here its argument. *)
Fixpoint generateAuthMap_loop (reqs : list F) (am : gmap Z F) : outcome (gmap Z F) :=
  match reqs with
  | [] => Returned am
  | req :: reqs' =>
    let flavor := GetAuthFlavor req in
    match am !! flavor with
    | Some _ =>
      Panicked (errors_New
        ("multiple authentication methods with the flavor `"
         +:+ default "" (Flavor_name !! to_int32 flavor)
         +:+ "` were found - confirm that all implementations of `GetAuthName` are unique"))
    | None => generateAuthMap_loop reqs' (<[flavor := req]> am)
    end
  end.

Definition generateAuthMap (CredentialRequests : list F) : outcome (gmap Z F) :=
  generateAuthMap_loop CredentialRequests ∅.

End Registry.

(** [CredentialRequestGetSigned]. *)
Definition CredentialRequestGetSigned {R CredentialConfig Session PrivateKey : Type}
    `{!CredentialRequest R CredentialConfig Session PrivateKey} (req : R)
  : option Credential * option error :=
  GetSignedCredential req.

End Auth.

(** ** Package [main] of [daos_agent]: [security_rpc.go] *)

Module Agent.
Import Go Auth.

(** The factories listed in [auth.CredentialRequests], and the list. *)
Inductive Factory := CredentialRequestUnix | CredentialRequestAM.
Definition CredentialRequests : list Factory := [CredentialRequestUnix; CredentialRequestAM].

(** The values of the interface [drpc.Method] that the module meets: its
    two own methods and any other method, known by its identifier. *)
Inductive Method :=
| MethodRequestCredentials
| MethodRequestValidFlavors
| MethodOther (id : Z).

(** What the file takes from other packages: the constants of [daos]
    ([daos.Status] and the method identifiers are [int32]), the types of
    the configuration and of the session, the credential requests behind
    the two factories, the transport configuration's [PrivateKey], the
    attach-info cache ([InfoCache_GetAttachInfo sys] is the list
    [resp.ValidAuthFlavors] and the error), and the codec. *)
Class Env := {
  BadCert : Z;
  MiscError : Z;
  MethodRequestCredentials_ID : Z;
  MethodRequestValidFlavors_ID : Z;
  ModuleSecurityAgent : Z;
  CredentialConfig : Type;
  TransportConfig : Type;
  Session : Type;
  SigningKey : Type;
  Request : Type;
  Env_request :: CredentialRequest Request CredentialConfig Session SigningKey;
  Env_factory :: CredentialRequestFactory Factory Request;
  TransportConfig_PrivateKey : TransportConfig → SigningKey * option error;
  InfoCache_GetAttachInfo : string → list Z * option error;
  proto_Unmarshal_AuthArgs : bytes → AuthArgs * option error;
  drpc_Marshal_GetCredResp : GetCredResp → bytes * option error;
  drpc_Marshal_GetValidAuthResp : GetValidAuthResp → bytes * option error;
}.

Definition Method_ID `{Env} (m : Method) : Z :=
  match m with
  | MethodRequestCredentials => MethodRequestCredentials_ID
  | MethodRequestValidFlavors => MethodRequestValidFlavors_ID
  | MethodOther id => id
  end.

(** *** Cached credentials *)

(** [cachedCredential]; [cred] is a pointer, [None] when nil. *)
Record cachedCredential := {
  key : string;
  expiredAt : time.Time;
  cred : option Credential;
}.

Definition Key (cred : option cachedCredential) : string :=
  match cred with
  | None => ""
  | Some c => key c
  end.

(** [IsExpired], called when the clock reads [now]. *)
Definition IsExpired (now : time.Time) (cred : option cachedCredential) : bool :=
  match cred with
  | None => true
  | Some c =>
    match Agent.cred c with
    | None => true
    | Some _ =>
      if time.IsZero (expiredAt c) then true
      else time.After now (expiredAt c)
    end
  end.

(** [newCachedCredential], called when the clock reads [now]. *)
Definition newCachedCredential (now : time.Time) (key : string)
    (cred : option Credential) (lifetime : time.Duration)
  : option cachedCredential * option error :=
  match cred with
  | None => (None, Some (errors_New "credential is nil"))
  | Some _ =>
    (Some {| key := key; cred := cred; expiredAt := time.Add now lifetime |}, None)
  end.

Section Dispatcher.
Context `{Proto} `{Env}.

(** *** The security module *)

Record securityConfig := {
  credentials : CredentialConfig;
  transport : TransportConfig;
  sys : string;
}.

(** [SecurityModule]: [log] holds the lines written with [Errorf], each
    with the error it formats; [signCredential] is the signer the
    constructor stored, which goes through the credential cache when the
    cache is enabled. *)
Record SecurityModule := {
  log : list (string * error);
  signCredential : Request → option Credential * option error;
  config : securityConfig;
  validAuthFlavors : list Flavor;
}.

Definition log_Errorf (m : SecurityModule) (format : string) (err : error) : SecurityModule :=
  {| log := log m ++ [(format, err)];
     signCredential := signCredential m;
     config := config m;
     validAuthFlavors := validAuthFlavors m |}.

Definition set_validAuthFlavors (m : SecurityModule) (fl : list Flavor) : SecurityModule :=
  {| log := log m;
     signCredential := signCredential m;
     config := config m;
     validAuthFlavors := fl |}.

(** [getAuthArgs]; the line it prints on standard output is left out. *)
Definition getAuthArgs (reqb : bytes) : option AuthArgs * option error :=
  let args := {| AuthArgs_Flavor := 0; AuthArgs_Data := [] |} in
  if (length reqb =? 0)%nat then
    (Some {| AuthArgs_Flavor := GetAuthFlavor CredentialRequestUnix;
             AuthArgs_Data := AuthArgs_Data args |}, None)
  else
    let '(args, err) := proto_Unmarshal_AuthArgs reqb in
    match err with
    | Some _ => (None, Some (drpc_Failure UnmarshalingPayloadFailure))
    | None => (Some args, None)
    end.

(** [retrieveAuthFromServer]. *)
Definition retrieveAuthFromServer (m : SecurityModule) : SecurityModule * option error :=
  let '(resp_ValidAuthFlavors, err) := InfoCache_GetAttachInfo (sys (config m)) in
  match err with
  | Some _ => (m, errors_Wrap err "failed to get attach info")
  | None =>
    let m := set_validAuthFlavors m (to_int32 <$> resp_ValidAuthFlavors) in
    if (length (validAuthFlavors m) =? 0)%nat then
      (m, Some (errors_New "failed to receive valid authentication flavors from server."))
    else (m, None)
  end.

(** The block that opens both [getCredential] and [getValidAuthFlavors]:
    fetch the valid flavors when the module holds none. *)
Definition ensureValidAuthFlavors (m : SecurityModule) : SecurityModule * option error :=
  if (length (validAuthFlavors m) =? 0)%nat then retrieveAuthFromServer m
  else (m, None).

(** [credRespWithStatus]. *)
Definition credRespWithStatus (status : Z) : bytes * option error :=
  drpc_Marshal_GetCredResp {| GetCredResp_Status := status; GetCredResp_Cred := None |}.

(** [getCredential]: the module after the call, and what the call
    returned; the type assertion [err.(daos.Status)] panics on an error
    that is not itself a status. *)
Definition getCredential (m : SecurityModule) (session : Session) (args : AuthArgs)
    (req : Request) : outcome (SecurityModule * (bytes * option error)) :=
  let '(m, err) := ensureValidAuthFlavors m in
  match err with
  | Some _ =>
    Returned (m, ([], errors_Wrap err "error in retrieving auth flavors from server"))
  | None =>
    if negb (slices_Contains (validAuthFlavors m) (AuthArgs_Flavor args)) then
      Returned (m, ([], Some (errors_New
        "invalid authentication method: the method requested is not allowed by the server configuration.")))
    else
      let '(signingKey, err) := TransportConfig_PrivateKey (transport (config m)) in
      match err with
      | Some e =>
        let m := log_Errorf m "failed to get signing key: %s" e in
        Returned (m, credRespWithStatus BadCert)
      | None =>
        let '(req, err) :=
          InitCredentialRequest req (credentials (config m)) session
            (AuthArgs_Data args) signingKey in
        match err with
        | Some e =>
          if errors_Is e (daos_Status MiscError) then
            match e with
            | daos_Status status => Returned (m, credRespWithStatus status)
            | _ => Panicked (errors_New "interface conversion: error is not daos.Status")
            end
          else
            let m := log_Errorf m "Unable to get credentials for client socket: %s" e in
            Returned (m, ([], Some e))
        | None =>
          let '(cred, err) := signCredential m req in
          match err with
          | Some e =>
            let m := log_Errorf m "failed to get user credential: %s" e in
            Returned (m, credRespWithStatus MiscError)
          | None =>
            Returned (m, drpc_Marshal_GetCredResp
                           {| GetCredResp_Status := 0; GetCredResp_Cred := cred |})
          end
        end
      end
  end.

(** [getValidAuthFlavors]. *)
Definition getValidAuthFlavors (m : SecurityModule)
  : SecurityModule * (bytes * option error) :=
  let '(m, err) := ensureValidAuthFlavors m in
  match err with
  | Some _ => (m, ([], errors_Wrap err "error in retrieving auth flavors from server"))
  | None =>
    (m, drpc_Marshal_GetValidAuthResp
          {| GetValidAuthResp_ValidAuthFlavors := validAuthFlavors m |})
  end.

(** [HandleCall]; [FlavorToFactory] is the package variable of [auth]
    that [generateAuthMap] initialised. *)
Definition HandleCall (FlavorToFactory : gmap Z Factory) (m : SecurityModule)
    (session : Session) (method : Method) (reqb : bytes)
  : outcome (SecurityModule * (bytes * option error)) :=
  match getAuthArgs reqb with
  | (_, Some e) => Returned (m, ([], errors_Wrap (Some e) "failed to parse request body"))
  | (None, None) => Panicked (errors_New "nil pointer dereference")
  | (Some args, None) =>
    match FlavorToFactory !! AuthArgs_Flavor args with
    | None =>
      Returned (m, ([], Some (errors_New
        "failed to find flavor in flavor to factory map - check that authentcation specified by the server is supported in the agent.")))
    | Some factory =>
      match method with
      | MethodRequestCredentials =>
        getCredential m session args (AllocCredentialRequest factory)
      | MethodRequestValidFlavors => Returned (getValidAuthFlavors m)
      | MethodOther _ => Returned (m, ([], Some (drpc_Failure UnknownMethodFailure)))
      end
    end
  end.

(** [String], [ID] and [GetMethod]. *)
Definition String : string := "agent_security".

Definition ID : Z := ModuleSecurityAgent.

Definition GetMethod (id : Z) : option Method * option error :=
  if id =? Method_ID MethodRequestCredentials then
    (Some MethodRequestCredentials, None)
  else
    (None, Some (errors_New
       ("invalid method ID " +:+ pretty id +:+ " for module " +:+ String))).

End Dispatcher.

End Agent.

(** ** Example collaborators

    Small executable implementations of the collaborators, on which the
    statements below are evaluated: a codec that writes a token as its
    flavor byte followed by its data and refuses to read a message that
    starts with [0xff], a signer whose digest is the reversed input, and an
    agent environment with two flavors. *)

Module Fixture.
Import Go Auth.

Definition byte_of_Z (z : Z) : byte := default x00 (Byte.of_N (Z.to_N (z mod 256))).
Definition Z_of_byte (b : byte) : Z := Z.of_N (Byte.to_N b).

Definition AUTH_NONE : Flavor := 0.
Definition AUTH_SYS : Flavor := 1.
Definition AUTH_AM : Flavor := 2.

Definition flavor_values : gmap string Z :=
  <["AUTH_NONE" := AUTH_NONE]> (<["AUTH_SYS" := AUTH_SYS]> (<["AUTH_AM" := AUTH_AM]> ∅)).
Definition flavor_names : gmap Z string :=
  <[AUTH_NONE := "AUTH_NONE"]> (<[AUTH_SYS := "AUTH_SYS"]> (<[AUTH_AM := "AUTH_AM"]> ∅)).

Definition parse_error : error := errors_New "proto: cannot parse invalid wire-format data".

Definition proto : Proto := {|
  Sys := bytes;
  Flavor_value := flavor_values;
  Flavor_name := flavor_names;
  Flavor_AUTH_SYS := AUTH_SYS;
  Flavor_String := λ f, default (pretty f) (flavor_names !! f);
  proto_Marshal_Token := λ t, (byte_of_Z (Token_Flavor t) :: Token_Data t, None);
  proto_Unmarshal_Sys := λ data,
    match data with
    | xff :: _ => ([], Some parse_error)
    | _ => (data, None)
    end;
|}.

Definition signer : TokenSigner := {|
  Auth.Key := bytes;
  Hash := λ data, (rev data, None);
  Sign := λ key data, (key ++ rev data, None);
  Verify := λ key data sig,
    if bytes_Equal sig (key ++ rev data) then None
    else Some (errors_New "crypto/rsa: verification error");
|}.

Definition sys_token : Token := {| Token_Flavor := AUTH_SYS; Token_Data := [x01; x02; x03] |}.
Definition am_token : Token := {| Token_Flavor := AUTH_AM; Token_Data := [x01; x02; x03] |}.
Definition bad_sys_token : Token := {| Token_Flavor := AUTH_SYS; Token_Data := [xff; x02] |}.

Definition credential : Credential :=
  {| Credential_Token := sys_token;
     Credential_Verifier := {| Token_Flavor := AUTH_NONE; Token_Data := [x03; x02; x01; x01] |} |}.

Definition request_ops : CredentialRequest Agent.Factory unit unit bytes := {|
  InitCredentialRequest := λ req _ _ _ _, (req, None);
  GetSignedCredential := λ _, (Some credential, None);
  CredReqKey := λ req,
    match req with
    | Agent.CredentialRequestUnix => "unix:1000"
    | Agent.CredentialRequestAM => "am:alice"
    end;
|}.

Definition factory_ops : CredentialRequestFactory Agent.Factory Agent.Factory := {|
  AllocCredentialRequest := λ f, f;
  GetAuthFlavor := λ f,
    match f with
    | Agent.CredentialRequestUnix => AUTH_SYS
    | Agent.CredentialRequestAM => AUTH_AM
    end;
|}.

(** Both factories report the same flavor. *)
Definition clashing_factory_ops : CredentialRequestFactory Agent.Factory Agent.Factory := {|
  AllocCredentialRequest := λ f, f;
  GetAuthFlavor := λ _, AUTH_SYS;
|}.

(** The transport configuration is [true] when it holds a private key. *)
Definition env : Agent.Env := {|
  Agent.BadCert := -2036;
  Agent.MiscError := -1025;
  Agent.MethodRequestCredentials_ID := 101;
  Agent.MethodRequestValidFlavors_ID := 102;
  Agent.ModuleSecurityAgent := 1;
  Agent.CredentialConfig := unit;
  Agent.TransportConfig := bool;
  Agent.Session := unit;
  Agent.SigningKey := bytes;
  Agent.Request := Agent.Factory;
  Agent.Env_request := request_ops;
  Agent.Env_factory := factory_ops;
  Agent.TransportConfig_PrivateKey := λ has_key : bool,
    if has_key then ([x2a], None) else ([], Some (errors_New "no private key"));
  Agent.InfoCache_GetAttachInfo := λ _, ([AUTH_SYS], None);
  Agent.proto_Unmarshal_AuthArgs := λ reqb,
    match reqb with
    | [] => ({| AuthArgs_Flavor := 0; AuthArgs_Data := [] |}, None)
    | xff :: _ => ({| AuthArgs_Flavor := 0; AuthArgs_Data := [] |}, Some parse_error)
    | f :: data => ({| AuthArgs_Flavor := Z_of_byte f; AuthArgs_Data := data |}, None)
    end;
  Agent.drpc_Marshal_GetCredResp := λ resp,
    (byte_of_Z (GetCredResp_Status resp) ::
     match GetCredResp_Cred resp with
     | None => []
     | Some c => Token_Data (Credential_Token c) ++ Token_Data (Credential_Verifier c)
     end, None);
  Agent.drpc_Marshal_GetValidAuthResp := λ resp,
    (byte_of_Z <$> GetValidAuthResp_ValidAuthFlavors resp, None);
|}.

Definition security_config (has_key : bool) : @Agent.securityConfig env :=
  @Agent.Build_securityConfig env () has_key "daos_server".

Definition security_module (has_key : bool) (valid : list Flavor)
  : @Agent.SecurityModule env :=
  @Agent.Build_SecurityModule env []
    (@CredentialRequestGetSigned Agent.Factory unit unit bytes request_ops)
    (security_config has_key) valid.

(** The signature that the example signer accepts for [am_token] under
    the key [[x2a]], and the content hash of [sys_token]. *)
Definition am_signature : bytes := [x2a; x03; x02; x01; x02].

Definition unix_args : AuthArgs := {| AuthArgs_Flavor := AUTH_SYS; AuthArgs_Data := [] |}.
Definition am_args : AuthArgs := {| AuthArgs_Flavor := AUTH_AM; AuthArgs_Data := [] |}.

End Fixture.

(** ** Vocabulary of the statements *)

Module Terms.
Import Go Auth.

(** The errors of [VerifyToken] and [ParseValidAuthFlavors]. *)
Definition unsupported_flavor : error :=
  errors_New "token has authentication flavor not supported by server.".
Definition unrecognized (s : string) : error :=
  errors_New ("auth string " +:+ s +:+ " is not recognized").

(** The error of [getCredential] for a flavor the server does not allow. *)
Definition invalid_authentication_method : error :=
  errors_New
    "invalid authentication method: the method requested is not allowed by the server configuration.".

(** A configuration name is recognised when the enumeration's table of
    names has an entry for it under the prefix [AUTH_]. *)
Definition recognized `{Proto} (s : string) : Prop :=
  is_Some (Flavor_value !! ("AUTH_" +:+ s)).

(** Two factories of the list, at different positions, report the same
    flavor. *)
Definition flavor_clash {F R : Type} `{CredentialRequestFactory F R} (reqs : list F) : Prop :=
  ∃ (i j : nat) (f g : F),
    i ≠ j ∧ reqs !! i = Some f ∧ reqs !! j = Some g ∧ GetAuthFlavor f = GetAuthFlavor g.

End Terms.

(** ** The credential cache of [security_rpc.go] *)

Module CredentialCache.
Import Go Auth Agent.

(** The values of the interface [cache.Item] that the file meets: a pointer
    to a [cachedCredential], which may be nil, or a value of another type. *)
Inductive Item :=
| Item_cachedCredential (c : option cachedCredential)
| Item_other.

(** The item cache of package [cache], which is not among the sources:
    [GetOrCreate c key create] is the cache after the call, the item and
    the error.  The cache calls [create] with the reading of the clock at
    that moment, since [create] reads the clock itself. *)
Class ItemCache := {
  Cache : Type;
  GetOrCreate :
    Cache → string → (time.Time → option Item * option error) →
    Cache * (option Item * option error);
}.

Section Cache.
Context `{Env} `{ItemCache}.

(** [credentialCache], without its logger. *)
Record credentialCache := {
  cache : Cache;
  credLifetime : time.Duration;
  cacheMissFn : Request → option Credential * option error;
}.

Definition set_cache (cc : credentialCache) (c : Cache) : credentialCache :=
  {| cache := c; credLifetime := credLifetime cc; cacheMissFn := cacheMissFn cc |}.

(** The closure [createItem] of [getSignedCredential], called when the
    clock reads [now]; its trace lines are left out.  The pointer that
    [newCachedCredential] returns becomes an item even when it is nil. *)
Definition createItem (cc : credentialCache) (req : Request) (now : time.Time)
  : option Item * option error :=
  let key := CredReqKey req in
  let '(cred, err) := cacheMissFn cc req in
  match err with
  | Some _ => (None, err)
  | None =>
    let '(c, err) := newCachedCredential now key cred (credLifetime cc) in
    (Some (Item_cachedCredential c), err)
  end.

(** [getSignedCredential]: the cache after the call and what the call
    returned; reading [cred] through a nil pointer panics. *)
Definition getSignedCredential (cc : credentialCache) (req : Request)
  : outcome (credentialCache * (option Credential * option error)) :=
  let key := CredReqKey req in
  let '(c, (item, err)) := GetOrCreate (cache cc) key (createItem cc req) in
  let cc := set_cache cc c in
  match err with
  | Some _ =>
    Returned (cc, (None, errors_Wrap err "getting cached credential from cache"))
  | None =>
    match item with
    | Some (Item_cachedCredential (Some cachedCred)) => Returned (cc, (cred cachedCred, None))
    | Some (Item_cachedCredential None) =>
      Panicked (errors_New "invalid memory address or nil pointer dereference")
    | _ => Returned (cc, (None, Some (errors_New "invalid cached credential")))
    end
  end.

End Cache.

End CredentialCache.

(** ** More example collaborators

    A cache that stores nothing: every lookup is a miss, served by calling
    the creation function at clock reading 100.  An agent environment whose
    credential requests can fail: the first byte of the request body
    selects the error of the initialisation, and the access-manager request
    cannot be signed. *)

Module MoreFixture.
Import Go Auth Agent CredentialCache.

Definition item_cache : ItemCache := {|
  Cache := unit;
  GetOrCreate := λ c _ create, (c, create 100);
|}.

Definition credential_cache : @credentialCache Fixture.env item_cache :=
  @Build_credentialCache Fixture.env item_cache () 5
    (@CredentialRequestGetSigned Agent.Factory unit unit bytes Fixture.request_ops).

Definition failing_request_ops : CredentialRequest Agent.Factory unit unit bytes := {|
  InitCredentialRequest := λ req _ _ req_body _,
    match req_body with
    | x01 :: _ => (req, Some (daos_Status (-1025)))
    | x02 :: _ => (req, Some (errors_WithMessage (daos_Status (-1025)) "looking up user"))
    | x03 :: _ => (req, Some (errors_New "no such user"))
    | _ => (req, None)
    end;
  GetSignedCredential := λ req,
    match req with
    | Agent.CredentialRequestUnix => (Some Fixture.credential, None)
    | Agent.CredentialRequestAM => (None, Some (errors_New "access manager unreachable"))
    end;
  CredReqKey := λ req,
    match req with
    | Agent.CredentialRequestUnix => "unix:1000"
    | Agent.CredentialRequestAM => "am:alice"
    end;
|}.

Definition failing_env : Agent.Env := {|
  Agent.BadCert := -2036;
  Agent.MiscError := -1025;
  Agent.MethodRequestCredentials_ID := 101;
  Agent.MethodRequestValidFlavors_ID := 102;
  Agent.ModuleSecurityAgent := 1;
  Agent.CredentialConfig := unit;
  Agent.TransportConfig := bool;
  Agent.Session := unit;
  Agent.SigningKey := bytes;
  Agent.Request := Agent.Factory;
  Agent.Env_request := failing_request_ops;
  Agent.Env_factory := Fixture.factory_ops;
  Agent.TransportConfig_PrivateKey := @Agent.TransportConfig_PrivateKey Fixture.env;
  Agent.InfoCache_GetAttachInfo := λ _, ([], Some (errors_New "connection refused"));
  Agent.proto_Unmarshal_AuthArgs := @Agent.proto_Unmarshal_AuthArgs Fixture.env;
  Agent.drpc_Marshal_GetCredResp := @Agent.drpc_Marshal_GetCredResp Fixture.env;
  Agent.drpc_Marshal_GetValidAuthResp := @Agent.drpc_Marshal_GetValidAuthResp Fixture.env;
|}.

Definition failing_module (valid : list Flavor) : @Agent.SecurityModule failing_env :=
  @Agent.Build_SecurityModule failing_env []
    (@CredentialRequestGetSigned Agent.Factory unit unit bytes failing_request_ops)
    (@Agent.Build_securityConfig failing_env () true "daos_server") valid.

Definition args_with (flavor : Flavor) (data : bytes) : AuthArgs :=
  {| AuthArgs_Flavor := flavor; AuthArgs_Data := data |}.

Definition failing_cache : @credentialCache failing_env item_cache :=
  @Build_credentialCache failing_env item_cache () 5
    (@CredentialRequestGetSigned Agent.Factory unit unit bytes failing_request_ops).

End MoreFixture.

(** ** More vocabulary of the statements *)

Module MoreTerms.
Import Go Auth.


(** The error of [HandleCall] for a flavor that has no factory. *)
Definition flavor_not_found : error :=
  errors_New
    "failed to find flavor in flavor to factory map - check that authentcation specified by the server is supported in the agent.".

(** The error of [getSignedCredential] for an error [e] of the cache. *)
Definition cache_failure (e : error) : error :=
  errors_WithMessage e "getting cached credential from cache".

End MoreTerms.

(** * Properties *)

(** ** Go runtime values *)

Module GoFacts.
Import Go.




Lemma slices_Contains_elem_of (s : list Z) (v : Z) :
  slices_Contains s v = true ↔ v ∈ s.
Proof.
  induction s as [|x s IH]; simpl.
  - split; [done | by intros ?%elem_of_nil].
  - rewrite orb_true_iff, IH, elem_of_cons, Z.eqb_eq.
    split; (intros [Hv|Hv]; [left; congruence | by right]).
Qed.

Lemma slices_Contains_not_elem_of (s : list Z) (v : Z) :
  slices_Contains s v = false ↔ v ∉ s.
Proof.
  rewrite <- slices_Contains_elem_of.
  split; [intros ->; discriminate | apply not_true_is_false].
Qed.

End GoFacts.

(** ** Cached credential entries *)

Module CacheSpec.
Import Go Auth Agent.

Lemma newCachedCredential_entry (t0 : time.Time) (k : string) (c : Credential)
    (L : time.Duration) :
  newCachedCredential t0 k (Some c) L
  = (Some {| key := k; cred := Some c; expiredAt := t0 + L |}, None).
Proof. reflexivity. Qed.

Lemma IsExpired_entry (now : time.Time) (e : cachedCredential) (c : Credential) :
  cred e = Some c →
  IsExpired now (Some e) = (expiredAt e =? 0) || (expiredAt e <? now).
Proof.
  intros Hc. unfold IsExpired, time.IsZero, time.After. rewrite Hc.
  by destruct (expiredAt e =? 0).
Qed.

(** C1, as the code has it.  An entry that [newCachedCredential] creates
    at clock reading [t0] with lifetime [L] expires at [t0 + L]; when that
    instant is not Go's zero time, [IsExpired] is false at every reading up
    to and including [t0 + L], and true at every reading strictly after
    it. *)
Theorem cachedCredential_expired_strictly_after (t0 : time.Time) (L : time.Duration)
    (k : string) (c : Credential) (now : time.Time) :
  t0 + L ≠ 0 →
  ∃ entry,
    newCachedCredential t0 k (Some c) L = (Some entry, None)
    ∧ expiredAt entry = t0 + L
    ∧ (now ≤ t0 + L → IsExpired now (Some entry) = false)
    ∧ (t0 + L < now → IsExpired now (Some entry) = true).
Proof.
  intros Hnz. eexists. split; [apply newCachedCredential_entry|].
  split; [done|].
  rewrite (IsExpired_entry _ _ c) by done. simpl.
  destruct (Z.eqb_spec (t0 + L) 0) as [|_]; [done|]. simpl.
  split; intros Hnow; [apply Z.ltb_ge | apply Z.ltb_lt]; lia.
Qed.

Lemma cachedCredential_expired_strictly_after_witness :
  ∃ entry,
    newCachedCredential 100 "unix:1000" (Some Fixture.credential) 5 = (Some entry, None)
    ∧ expiredAt entry = 100 + 5
    ∧ (105 ≤ 100 + 5 → IsExpired 105 (Some entry) = false)
    ∧ (100 + 5 < 105 → IsExpired 105 (Some entry) = true).
Proof.
  apply (cachedCredential_expired_strictly_after 100 5 "unix:1000" Fixture.credential 105).
  lia.
Defined.

(** C1 as stated fails at the expiration instant: an entry created at
    reading 100 with lifetime 5 is looked up at reading 105, which is at
    [t0 + L], and [IsExpired] is false. *)
Lemma cachedCredential_fresh_at_expiration_instant :
  ∃ entry,
    newCachedCredential 100 "unix:1000" (Some Fixture.credential) 5 = (Some entry, None)
    ∧ 100 + 5 ≤ 105
    ∧ IsExpired 105 (Some entry) ≠ true.
Proof.
  eexists. split; [reflexivity|]. split; [lia|]. vm_compute. discriminate.
Qed.

End CacheSpec.

(** ** Token verifier *)

Module TokenSpec.
Import Go Auth GoFacts Terms.

Section Verifier.
Context `{Proto} `{TokenSigner}.

Lemma VerifyToken_marshal_error (key : option Key) (token : Token) (sig : bytes)
    (validAuthFlavors : list Z) (tokenBytes : bytes) (e : error) :
  proto_Marshal_Token token = (tokenBytes, Some e) →
  VerifyToken key token sig validAuthFlavors
  = ([], Some (errors_WithMessage e "unable to marshal Token")).
Proof. intros Hm. unfold VerifyToken. by rewrite Hm. Qed.

Lemma VerifyToken_unlisted (key : option Key) (token : Token) (sig : bytes)
    (validAuthFlavors : list Z) (tokenBytes : bytes) :
  proto_Marshal_Token token = (tokenBytes, None) →
  to_uint32 (Token_Flavor token) ∉ validAuthFlavors →
  VerifyToken key token sig validAuthFlavors = ([], Some unsupported_flavor).
Proof.
  intros Hm Hf%slices_Contains_not_elem_of. unfold VerifyToken. by rewrite Hm, Hf.
Qed.



(** C2.  A token whose flavor is not in [validAuthFlavors] is rejected,
    whatever the key and the verifier are, and no call on the signer is
    made: neither a hash nor a signature verification.  The error is the
    unsupported-flavor error for every token that serialises; the error
    of a token that does not serialise is the one of the marshal step,
    which comes first in the function. *)
Theorem VerifyToken_flavor_checked_before_signer (key : option Key) (token : Token)
    (sig : bytes) (validAuthFlavors : list Z) :
  to_uint32 (Token_Flavor token) ∉ validAuthFlavors →
  calls (VerifyToken key token sig validAuthFlavors) = []
  ∧ result (VerifyToken key token sig validAuthFlavors) ≠ None
  ∧ (∀ tokenBytes, proto_Marshal_Token token = (tokenBytes, None) →
       VerifyToken key token sig validAuthFlavors = ([], Some unsupported_flavor)).
Proof.
  intros Hf.
  destruct (proto_Marshal_Token token) as [tokenBytes [e|]] eqn:Hm.
  - rewrite (VerifyToken_marshal_error _ _ _ _ _ _ Hm). by repeat split.
  - rewrite (VerifyToken_unlisted _ _ _ _ _ Hm Hf). by repeat split.
Qed.



End Verifier.

Lemma VerifyToken_flavor_checked_before_signer_witness :
  @Verify Fixture.signer [x2a] (@proto_Marshal_Token Fixture.proto Fixture.am_token).1
    Fixture.am_signature = None
  ∧ calls (@VerifyToken Fixture.proto Fixture.signer (Some [x2a]) Fixture.am_token
             Fixture.am_signature [Fixture.AUTH_SYS]) = []
  ∧ @VerifyToken Fixture.proto Fixture.signer (Some [x2a]) Fixture.am_token
      Fixture.am_signature [Fixture.AUTH_SYS] = ([], Some unsupported_flavor).
Proof.
  split; [reflexivity|].
  destruct (@VerifyToken_flavor_checked_before_signer Fixture.proto Fixture.signer
              (Some [x2a]) Fixture.am_token Fixture.am_signature [Fixture.AUTH_SYS])
    as (Hcalls & _ & Hres).
  - intros Hin%list_elem_of_singleton. vm_compute in Hin. discriminate.
  - split; [exact Hcalls|]. apply (Hres [x02; x01; x02; x03]). reflexivity.
Defined.



Section Decoding.
Context `{Proto}.

(** C9.  [AuthSysFromAuthToken] returns an identity only for a token of
    flavor [AUTH_SYS] whose payload deserialises, and then it is the
    deserialised payload; a token of any other flavor gets the
    type-mismatch error and no identity; an [AUTH_SYS] token whose
    payload does not deserialise gets the wrapped unmarshaling error and
    no identity. *)
Theorem AuthSysFromAuthToken_only_AUTH_SYS (authToken : Token) :
  (Token_Flavor authToken ≠ Flavor_AUTH_SYS →
     AuthSysFromAuthToken authToken
     = (None, Some (errors_New "Attempting to convert an invalid AuthSys Token")))
  ∧ (∀ sysToken e,
       Token_Flavor authToken = Flavor_AUTH_SYS →
       proto_Unmarshal_Sys (Token_Data authToken) = (sysToken, Some e) →
       AuthSysFromAuthToken authToken
       = (None, Some (errors_WithMessage e
                        ("unmarshaling " +:+ Flavor_String Flavor_AUTH_SYS))))
  ∧ (∀ sysToken,
       Token_Flavor authToken = Flavor_AUTH_SYS →
       proto_Unmarshal_Sys (Token_Data authToken) = (sysToken, None) →
       AuthSysFromAuthToken authToken = (Some sysToken, None))
  ∧ (∀ sysToken,
       (AuthSysFromAuthToken authToken).1 = Some sysToken →
       Token_Flavor authToken = Flavor_AUTH_SYS
       ∧ proto_Unmarshal_Sys (Token_Data authToken) = (sysToken, None)
       ∧ (AuthSysFromAuthToken authToken).2 = None).
Proof.
  unfold AuthSysFromAuthToken.
  destruct (Z.eqb_spec (Token_Flavor authToken) Flavor_AUTH_SYS) as [Heq|Hne]; simpl.
  - destruct (proto_Unmarshal_Sys (Token_Data authToken)) as [s [e|]] eqn:Hu; simpl.
    + rewrite Heq. split; [done|]. split; [by intros ? ? _ [= _ <-]|].
      split; [done|]. intros ? [=].
    + split; [done|]. split; [done|]. split; [by intros ? _ [= <-]|].
      by intros ? [= <-].
  - split; [done|]. split; [done|]. split; [done|]. intros ? [=].
Qed.

End Decoding.

Lemma AuthSysFromAuthToken_only_AUTH_SYS_witness :
  @AuthSysFromAuthToken Fixture.proto Fixture.sys_token = (Some [x01; x02; x03], None)
  ∧ @AuthSysFromAuthToken Fixture.proto Fixture.am_token
    = (None, Some (errors_New "Attempting to convert an invalid AuthSys Token"))
  ∧ @AuthSysFromAuthToken Fixture.proto Fixture.bad_sys_token
    = (None, Some (errors_WithMessage Fixture.parse_error "unmarshaling AUTH_SYS")).
Proof.
  destruct (@AuthSysFromAuthToken_only_AUTH_SYS Fixture.proto Fixture.sys_token)
    as (_ & _ & Hsys & _).
  destruct (@AuthSysFromAuthToken_only_AUTH_SYS Fixture.proto Fixture.am_token)
    as (Ham & _).
  destruct (@AuthSysFromAuthToken_only_AUTH_SYS Fixture.proto Fixture.bad_sys_token)
    as (_ & Hbad & _).
  split; [by apply Hsys|]. split; [by apply Ham|].
  by apply (Hbad []).
Defined.

End TokenSpec.

(** ** Flavor names *)

Module FlavorSpec.
Import Go Auth Terms.

Section Parsing.
Context `{Proto}.

(** The loop stops at the first name that is not recognised. *)
Lemma ParseValidAuthFlavors_loop_stops (pre : list string) (s : string)
    (post : list string) (i : nat) (validAuthFlavors : list Z) :
  Forall recognized pre → ¬ recognized s →
  ParseValidAuthFlavors_loop i (pre ++ s :: post) validAuthFlavors
  = ([], Some (unrecognized s)).
Proof.
  intros Hpre Hs. revert i validAuthFlavors.
  induction Hpre as [|x pre [flavor Hx] _ IH]; intros i validAuthFlavors; simpl.
  - destruct (Flavor_value !! ("AUTH_" +:+ s)) eqn:E; [|done].
    exfalso. apply Hs. by eexists.
  - rewrite Hx. apply IH.
Qed.

(** Loop invariant: the slots below [i] are kept, the slots from [i] on
    receive the flavors of the remaining names, in order. *)
Lemma ParseValidAuthFlavors_loop_fills (rest : list string) (flavors : list Z)
    (i : nat) (validAuthFlavors : list Z) :
  Forall2 (λ s flavor, Flavor_value !! ("AUTH_" +:+ s) = Some flavor) rest flavors →
  length validAuthFlavors = (i + length rest)%nat →
  ParseValidAuthFlavors_loop i rest validAuthFlavors
  = (take i validAuthFlavors ++ (to_uint32 <$> flavors), None).
Proof.
  intros Hall. revert i validAuthFlavors.
  induction Hall as [|s flavor rest flavors Hs _ IH]; intros i validAuthFlavors Hlen; simpl.
  - rewrite app_nil_r, firstn_all2; [done|]. simpl in Hlen. lia.
  - rewrite Hs. simpl in Hlen. rewrite IH by (rewrite length_insert; lia).
    f_equal. rewrite (take_S_r _ _ (to_uint32 flavor)).
    + rewrite take_insert_ge by lia. by rewrite <- app_assoc.
    + apply list_lookup_insert_eq. lia.
Qed.

(** C8.  When a name is not recognised, [ParseValidAuthFlavors] returns
    no list and the error that names the first such name; when every name
    is recognised, it returns without error one flavor identifier per
    name, in the order of the names. *)
Theorem ParseValidAuthFlavors_all_or_nothing (authStrings : list string) :
  (∀ pre s post,
     authStrings = pre ++ s :: post → Forall recognized pre → ¬ recognized s →
     ParseValidAuthFlavors authStrings = ([], Some (unrecognized s)))
  ∧ (Forall recognized authStrings →
     ∃ validAuthFlavors,
       ParseValidAuthFlavors authStrings = (validAuthFlavors, None)
       ∧ length validAuthFlavors = length authStrings
       ∧ ∀ (i : nat) s, authStrings !! i = Some s →
           validAuthFlavors !! i = to_uint32 <$> Flavor_value !! ("AUTH_" +:+ s)).
Proof.
  unfold ParseValidAuthFlavors. split.
  - intros pre s post -> Hpre Hs. by apply ParseValidAuthFlavors_loop_stops.
  - intros Hall.
    assert (∃ flavors,
              Forall2 (λ s flavor, Flavor_value !! ("AUTH_" +:+ s) = Some flavor)
                authStrings flavors) as [flavors Hfl].
    { induction Hall as [|s l [flavor Hs] _ [flavors IH]].
      - exists []. constructor.
      - exists (flavor :: flavors). by constructor. }
    exists (to_uint32 <$> flavors).
    rewrite (ParseValidAuthFlavors_loop_fills _ _ _ _ Hfl)
      by (by rewrite length_replicate).
    split; [done|]. split.
    + rewrite length_fmap. symmetry. by eapply Forall2_length.
    + intros i s Hi. rewrite list_lookup_fmap.
      destruct (Forall2_lookup_l _ _ _ _ _ Hfl Hi) as (flavor & -> & ->). done.
Qed.

End Parsing.

Lemma ParseValidAuthFlavors_all_or_nothing_witness :
  @ParseValidAuthFlavors Fixture.proto ["SYS"; "KRB"; "AM"; "LDAP"]
  = ([], Some (unrecognized "KRB"))
  ∧ ∃ validAuthFlavors,
      @ParseValidAuthFlavors Fixture.proto ["SYS"; "AM"; "SYS"] = (validAuthFlavors, None)
      ∧ length validAuthFlavors = 3%nat
      ∧ validAuthFlavors !! 1%nat = Some 2.
Proof.
  destruct (@ParseValidAuthFlavors_all_or_nothing Fixture.proto
              ["SYS"; "KRB"; "AM"; "LDAP"]) as [Hstop _].
  destruct (@ParseValidAuthFlavors_all_or_nothing Fixture.proto ["SYS"; "AM"; "SYS"])
    as [_ Hfill].
  split.
  - apply (Hstop ["SYS"] "KRB" ["AM"; "LDAP"]); [reflexivity| |].
    + repeat constructor. by eexists.
    + intros [flavor Hflavor]. vm_compute in Hflavor. discriminate.
  - destruct Hfill as (validAuthFlavors & Hret & Hlen & Hnth).
    + repeat constructor; by eexists.
    + exists validAuthFlavors. split; [exact Hret|]. split; [exact Hlen|].
      exact (Hnth 1%nat "AM" eq_refl).
Defined.

Example ParseValidAuthFlavors_known :
  @ParseValidAuthFlavors Fixture.proto ["SYS"; "AM"; "SYS"] = ([1; 2; 1], None).
Proof. reflexivity. Qed.

End FlavorSpec.

(** ** Flavor registry *)

Module RegistrySpec.
Import Go Auth Terms.

Section Registry.
Context `{Proto} {F R : Type} `{CredentialRequestFactory F R}.

(** The loop returns only from a list of distinct flavors, none of them
    bound in the map it starts from. *)
Lemma generateAuthMap_loop_returned (reqs : list F) (am am' : gmap Z F) :
  generateAuthMap_loop reqs am = Returned am' →
  NoDup (GetAuthFlavor <$> reqs) ∧ ∀ k, k ∈ GetAuthFlavor <$> reqs → am !! k = None.
Proof.
  revert am. induction reqs as [|req reqs IH]; intros am; simpl.
  - intros _. split; [constructor | by intros k ?%elem_of_nil].
  - destruct (am !! GetAuthFlavor req) eqn:Hreq; [done|].
    intros [Hnd Hfree]%IH.
    assert (GetAuthFlavor req ∉ GetAuthFlavor <$> reqs) as Hfresh.
    { intros Hin. specialize (Hfree _ Hin). by rewrite lookup_insert_eq in Hfree. }
    split; [by constructor|].
    intros k [->|Hk]%elem_of_cons; [done|].
    specialize (Hfree _ Hk). rewrite lookup_insert_ne in Hfree; [done|].
    intros Heq. apply Hfresh. by rewrite Heq.
Qed.

(** From such a list the loop returns, and the map it returns binds the
    flavor of every factory of the list to that factory and is the
    starting map elsewhere. *)
Lemma generateAuthMap_loop_binds (reqs : list F) (am : gmap Z F) :
  NoDup (GetAuthFlavor <$> reqs) →
  (∀ k, k ∈ GetAuthFlavor <$> reqs → am !! k = None) →
  ∃ am', generateAuthMap_loop reqs am = Returned am'
         ∧ (∀ f, f ∈ reqs → am' !! GetAuthFlavor f = Some f)
         ∧ (∀ k, k ∉ GetAuthFlavor <$> reqs → am' !! k = am !! k).
Proof.
  revert am. induction reqs as [|req reqs IH]; intros am; simpl.
  - intros _ _. exists am. split; [done|]. split; [by intros f ?%elem_of_nil | done].
  - intros [Hfresh Hnd]%NoDup_cons Hfree.
    rewrite (Hfree (GetAuthFlavor req)) by apply list_elem_of_here.
    destruct (IH (<[GetAuthFlavor req := req]> am) Hnd) as (am' & -> & Hbound & Hrest).
    { intros k Hk. rewrite lookup_insert_ne by (intros Heq; apply Hfresh; by rewrite Heq).
      by apply Hfree, list_elem_of_further. }
    exists am'. split; [done|]. split.
    + intros f [->|Hf]%elem_of_cons; [|by apply Hbound].
      by rewrite (Hrest _ Hfresh), lookup_insert_eq.
    + intros k [Hne Hk]%not_elem_of_cons.
      by rewrite (Hrest _ Hk), lookup_insert_ne.
Qed.

Lemma flavor_clash_NoDup (reqs : list F) :
  flavor_clash reqs ↔ ¬ NoDup (GetAuthFlavor <$> reqs).
Proof.
  split.
  - intros (i & j & f & g & Hij & Hi & Hj & Hfg) Hnd. apply Hij.
    apply (proj1 (NoDup_alt _) Hnd i j (GetAuthFlavor f)); rewrite list_lookup_fmap.
    + by rewrite Hi.
    + by rewrite Hj, Hfg.
  - induction reqs as [|req reqs IH]; simpl; intros Hnd.
    + destruct Hnd. constructor.
    + destruct (decide (GetAuthFlavor req ∈ GetAuthFlavor <$> reqs)) as [Hin|Hout].
      * apply list_elem_of_fmap in Hin as (g & Hg & [j Hj]%list_elem_of_lookup).
        exists 0%nat, (S j), req, g. by repeat split.
      * destruct IH as (i & j & f & g & Hij & Hi & Hj & Hfg).
        { intros Hnd'. apply Hnd. by constructor. }
        exists (S i), (S j), f, g. repeat split; [lia|done..].
Qed.

(** C4.  [generateAuthMap] panics exactly when two factories of the
    list report the same flavor; otherwise it returns a map in which the
    flavor of every factory of the list is bound to that factory, and
    which has no other binding. *)
Theorem generateAuthMap_panics_iff_flavor_clash (CredentialRequests : list F) :
  ((∃ e, generateAuthMap CredentialRequests = Panicked e) ↔ flavor_clash CredentialRequests)
  ∧ (¬ flavor_clash CredentialRequests →
     ∃ am, generateAuthMap CredentialRequests = Returned am
           ∧ (∀ f, f ∈ CredentialRequests → am !! GetAuthFlavor f = Some f)
           ∧ (∀ k f, am !! k = Some f → f ∈ CredentialRequests ∧ GetAuthFlavor f = k)).
Proof.
  unfold generateAuthMap. rewrite flavor_clash_NoDup.
  assert (NoDup (GetAuthFlavor <$> CredentialRequests) →
          ∃ am, generateAuthMap_loop CredentialRequests ∅ = Returned am
                ∧ (∀ f, f ∈ CredentialRequests → am !! GetAuthFlavor f = Some f)
                ∧ (∀ k f, am !! k = Some f →
                     f ∈ CredentialRequests ∧ GetAuthFlavor f = k)) as Hok.
  { intros Hnd.
    destruct (generateAuthMap_loop_binds CredentialRequests ∅ Hnd)
      as (am & Hret & Hbound & Hrest); [done|].
    exists am. split; [done|]. split; [done|]. intros k f Hk.
    destruct (decide (k ∈ GetAuthFlavor <$> CredentialRequests)) as [Hin|Hout].
    - apply list_elem_of_fmap in Hin as (g & -> & Hg).
      rewrite (Hbound _ Hg) in Hk. by injection Hk as <-.
    - rewrite (Hrest _ Hout), lookup_empty in Hk. done. }
  split; [split|].
  - intros [e He] Hnd. destruct (Hok Hnd) as (am & Hret & _). congruence.
  - intros Hclash.
    destruct (generateAuthMap_loop CredentialRequests ∅) as [am|e] eqn:Hloop;
      [|by eexists].
    destruct Hclash. by apply (generateAuthMap_loop_returned _ _ _ Hloop).
  - intros Hnd. apply Hok. by destruct (decide (NoDup (GetAuthFlavor <$> CredentialRequests))).
Qed.

End Registry.

Lemma generateAuthMap_panics_iff_flavor_clash_witness :
  (∃ e, @generateAuthMap Fixture.proto _ _ Fixture.clashing_factory_ops
          Agent.CredentialRequests = Panicked e)
  ∧ ∃ am, @generateAuthMap Fixture.proto _ _ Fixture.factory_ops
            Agent.CredentialRequests = Returned am
          ∧ am !! Fixture.AUTH_SYS = Some Agent.CredentialRequestUnix
          ∧ am !! Fixture.AUTH_AM = Some Agent.CredentialRequestAM.
Proof.
  destruct (@generateAuthMap_panics_iff_flavor_clash Fixture.proto _ _
              Fixture.clashing_factory_ops Agent.CredentialRequests) as [[_ Hpanic] _].
  destruct (@generateAuthMap_panics_iff_flavor_clash Fixture.proto _ _
              Fixture.factory_ops Agent.CredentialRequests) as [[_ Hclash] Hmap].
  split.
  - apply Hpanic.
    exists 0%nat, 1%nat, Agent.CredentialRequestUnix, Agent.CredentialRequestAM.
    repeat split. discriminate.
  - destruct Hmap as (am & Hret & Hbound & _).
    + intros Hc. apply Hclash in Hc as [e He]. vm_compute in He. discriminate.
    + exists am. split; [exact Hret|]. split.
      * apply (Hbound Agent.CredentialRequestUnix), list_elem_of_here.
      * apply (Hbound Agent.CredentialRequestAM), list_elem_of_further, list_elem_of_here.
Defined.

Example generateAuthMap_same_flavor :
  @generateAuthMap Fixture.proto _ _ Fixture.clashing_factory_ops Agent.CredentialRequests
  = Panicked (errors_New
      "multiple authentication methods with the flavor `AUTH_SYS` were found - confirm that all implementations of `GetAuthName` are unique").
Proof. reflexivity. Qed.

End RegistrySpec.

(** ** The security module *)

Module DispatcherSpec.
Import Go Auth Agent Terms.

Section Dispatcher.
Context `{Proto} `{Env}.

(** The registry built from [CredentialRequests] resolves the flavor of
    the Unix factory to the Unix factory. *)
Lemma FlavorToFactory_resolves_unix (FlavorToFactory : gmap Z Factory) :
  generateAuthMap CredentialRequests = Returned FlavorToFactory →
  FlavorToFactory !! GetAuthFlavor CredentialRequestUnix = Some CredentialRequestUnix.
Proof.
  unfold generateAuthMap. intros Hret.
  destruct (RegistrySpec.generateAuthMap_loop_returned _ _ _ Hret) as [Hnd Hfree].
  destruct (RegistrySpec.generateAuthMap_loop_binds _ _ Hnd Hfree) as (am & Ham & Hbound & _).
  rewrite Hret in Ham. injection Ham as <-. apply Hbound, list_elem_of_here.
Qed.

Lemma getAuthArgs_empty :
  getAuthArgs []
  = (Some {| AuthArgs_Flavor := GetAuthFlavor CredentialRequestUnix; AuthArgs_Data := [] |},
     None).
Proof. reflexivity. Qed.

(** C5.  The empty payload decodes, without error, to the flavor of the
    Unix credential request and an empty inner payload, and [HandleCall]
    then dispatches on the method with the Unix factory's request; a
    non-empty payload decodes to what [proto.Unmarshal] reads from it, or
    to the unmarshaling-failure error when [proto.Unmarshal] fails. *)
Theorem getAuthArgs_empty_payload_is_unix (reqb : bytes) :
  getAuthArgs []
  = (Some {| AuthArgs_Flavor := GetAuthFlavor CredentialRequestUnix; AuthArgs_Data := [] |},
     None)
  ∧ (reqb ≠ [] →
     getAuthArgs reqb
     = match proto_Unmarshal_AuthArgs reqb with
       | (args, None) => (Some args, None)
       | (_, Some _) => (None, Some (drpc_Failure UnmarshalingPayloadFailure))
       end)
  ∧ (∀ FlavorToFactory m session method,
       generateAuthMap CredentialRequests = Returned FlavorToFactory →
       HandleCall FlavorToFactory m session method []
       = let args := {| AuthArgs_Flavor := GetAuthFlavor CredentialRequestUnix;
                        AuthArgs_Data := [] |} in
         match method with
         | MethodRequestCredentials =>
           getCredential m session args (AllocCredentialRequest CredentialRequestUnix)
         | MethodRequestValidFlavors => Returned (getValidAuthFlavors m)
         | MethodOther _ => Returned (m, ([], Some (drpc_Failure UnknownMethodFailure)))
         end).
Proof.
  split; [apply getAuthArgs_empty|]. split.
  - intros Hne. unfold getAuthArgs. destruct reqb as [|b reqb]; [done|]. simpl.
    by destruct (proto_Unmarshal_AuthArgs (b :: reqb)) as [args [e|]].
  - intros FlavorToFactory m session method Hmap. unfold HandleCall.
    rewrite getAuthArgs_empty. simpl.
    by rewrite (FlavorToFactory_resolves_unix _ Hmap).
Qed.

(** C6.  Once the valid flavors are there and hold the requested flavor,
    a failure of [PrivateKey] makes [getCredential] log the failure and
    return what [drpc.Marshal] gives for the response that carries the
    status [daos.BadCert] and no credential: the bytes of that response
    and no error whenever marshaling succeeds.  The error of [PrivateKey]
    itself is not returned. *)
Theorem getCredential_bad_certificate_status (m m' : SecurityModule) (session : Session)
    (args : AuthArgs) (req : Request) (signingKey : SigningKey) (e : error) :
  ensureValidAuthFlavors m = (m', None) →
  AuthArgs_Flavor args ∈ validAuthFlavors m' →
  TransportConfig_PrivateKey (transport (config m')) = (signingKey, Some e) →
  getCredential m session args req
  = Returned (log_Errorf m' "failed to get signing key: %s" e,
              drpc_Marshal_GetCredResp
                {| GetCredResp_Status := BadCert; GetCredResp_Cred := None |})
  ∧ ∀ respb,
      drpc_Marshal_GetCredResp {| GetCredResp_Status := BadCert; GetCredResp_Cred := None |}
      = (respb, None) →
      getCredential m session args req
      = Returned (log_Errorf m' "failed to get signing key: %s" e, (respb, None)).
Proof.
  intros Hens Hin%GoFacts.slices_Contains_elem_of Hkey.
  assert (getCredential m session args req
          = Returned (log_Errorf m' "failed to get signing key: %s" e,
                      credRespWithStatus BadCert)) as Hcall.
  { unfold getCredential. rewrite Hens, Hin. simpl. by rewrite Hkey. }
  split; [exact Hcall|]. intros respb Hresp. rewrite Hcall. unfold credRespWithStatus.
  by rewrite Hresp.
Qed.

(** C7, as the code has it.  Once the valid flavors are there and do not
    hold the requested flavor, [getCredential] returns no response bytes
    and the error "invalid authentication method": a Go error, not a
    response with a status.  The module is unchanged apart from the
    flavors it fetched, and nothing is logged. *)
Theorem getCredential_disallowed_flavor_error (m m' : SecurityModule) (session : Session)
    (args : AuthArgs) (req : Request) :
  ensureValidAuthFlavors m = (m', None) →
  AuthArgs_Flavor args ∉ validAuthFlavors m' →
  getCredential m session args req
  = Returned (m', ([], Some invalid_authentication_method)).
Proof.
  intros Hens Hout%GoFacts.slices_Contains_not_elem_of.
  unfold getCredential. by rewrite Hens, Hout.
Qed.

(** C10.  [GetMethod] returns a method, and no error, exactly for the
    identifier of the request-credentials method; any other identifier
    gets the invalid-method error, and so does the identifier of the
    request-valid-flavors method, which differs from the former.
    [HandleCall] nevertheless serves both methods. *)
Theorem GetMethod_only_request_credentials (id : Z) :
  (id = Method_ID MethodRequestCredentials →
     GetMethod id = (Some MethodRequestCredentials, None))
  ∧ (id ≠ Method_ID MethodRequestCredentials →
     GetMethod id
     = (None, Some (errors_New
          ("invalid method ID " +:+ pretty id +:+ " for module agent_security"))))
  ∧ (Method_ID MethodRequestValidFlavors ≠ Method_ID MethodRequestCredentials →
     GetMethod (Method_ID MethodRequestValidFlavors)
     = (None, Some (errors_New
          ("invalid method ID " +:+ pretty (Method_ID MethodRequestValidFlavors)
           +:+ " for module agent_security"))))
  ∧ (∀ FlavorToFactory m session reqb args factory,
       getAuthArgs reqb = (Some args, None) →
       FlavorToFactory !! AuthArgs_Flavor args = Some factory →
       HandleCall FlavorToFactory m session MethodRequestCredentials reqb
       = getCredential m session args (AllocCredentialRequest factory)
       ∧ HandleCall FlavorToFactory m session MethodRequestValidFlavors reqb
         = Returned (getValidAuthFlavors m)).
Proof.
  assert (∀ i, i ≠ Method_ID MethodRequestCredentials →
            GetMethod i
            = (None, Some (errors_New
                 ("invalid method ID " +:+ pretty i +:+ " for module agent_security"))))
    as Hother.
  { intros i Hi. unfold GetMethod. apply Z.eqb_neq in Hi. by rewrite Hi. }
  split; [|split; [apply Hother|split; [apply Hother|]]].
  - intros ->. unfold GetMethod. by rewrite Z.eqb_refl.
  - intros FlavorToFactory m session reqb args factory Hargs Hfac.
    unfold HandleCall. by rewrite Hargs, Hfac.
Qed.

End Dispatcher.

Section Examples.
#[local] Existing Instance Fixture.proto.
#[local] Existing Instance Fixture.env.

Lemma getAuthArgs_empty_payload_is_unix_witness :
  getAuthArgs [x02; x07] = (Some {| AuthArgs_Flavor := 2; AuthArgs_Data := [x07] |}, None)
  ∧ HandleCall (<[Fixture.AUTH_AM := CredentialRequestAM]>
                  (<[Fixture.AUTH_SYS := CredentialRequestUnix]> ∅))
      (Fixture.security_module true [Fixture.AUTH_SYS]) () MethodRequestValidFlavors []
    = Returned (Fixture.security_module true [Fixture.AUTH_SYS], ([x01], None)).
Proof.
  destruct (getAuthArgs_empty_payload_is_unix [x02; x07]) as (_ & Hdecode & Hcall).
  split; [by apply Hdecode|].
  exact (Hcall (<[Fixture.AUTH_AM := CredentialRequestAM]>
                  (<[Fixture.AUTH_SYS := CredentialRequestUnix]> ∅))
           (Fixture.security_module true [Fixture.AUTH_SYS]) ()
           MethodRequestValidFlavors eq_refl).
Defined.

Lemma getCredential_bad_certificate_status_witness :
  getCredential (Fixture.security_module false [Fixture.AUTH_SYS]) () Fixture.unix_args
    CredentialRequestUnix
  = Returned
      (log_Errorf (Fixture.security_module false [Fixture.AUTH_SYS])
         "failed to get signing key: %s" (errors_New "no private key"),
       ([x0c], None)).
Proof.
  destruct (getCredential_bad_certificate_status
              (Fixture.security_module false [Fixture.AUTH_SYS])
              (Fixture.security_module false [Fixture.AUTH_SYS])
              () Fixture.unix_args CredentialRequestUnix [] (errors_New "no private key"))
    as [_ Hresp].
  - reflexivity.
  - apply list_elem_of_here.
  - reflexivity.
  - apply Hresp. reflexivity.
Defined.

Lemma getCredential_disallowed_flavor_error_witness :
  getCredential (Fixture.security_module true [Fixture.AUTH_SYS]) () Fixture.am_args
    CredentialRequestAM
  = Returned (Fixture.security_module true [Fixture.AUTH_SYS],
              ([], Some invalid_authentication_method)).
Proof.
  apply (getCredential_disallowed_flavor_error
           (Fixture.security_module true [Fixture.AUTH_SYS])).
  - reflexivity.
  - intros Hin%list_elem_of_singleton. vm_compute in Hin. discriminate.
Defined.

(** C7 as stated fails: the server allows only [AUTH_SYS], the request
    asks for [AUTH_AM], and [getCredential] returns an error and no
    bytes, which no status response equals. *)
Lemma getCredential_disallowed_flavor_no_status_response :
  ensureValidAuthFlavors (Fixture.security_module true [Fixture.AUTH_SYS])
  = (Fixture.security_module true [Fixture.AUTH_SYS], None)
  ∧ (AuthArgs_Flavor Fixture.am_args
     ∉ validAuthFlavors (Fixture.security_module true [Fixture.AUTH_SYS]))
  ∧ (∃ e, getCredential (Fixture.security_module true [Fixture.AUTH_SYS]) ()
            Fixture.am_args CredentialRequestAM
          = Returned (Fixture.security_module true [Fixture.AUTH_SYS], ([], Some e)))
  ∧ (∀ m' status,
       getCredential (Fixture.security_module true [Fixture.AUTH_SYS]) ()
         Fixture.am_args CredentialRequestAM
       ≠ Returned (m', credRespWithStatus status)).
Proof.
  split; [reflexivity|]. split.
  { intros Hin%list_elem_of_singleton. vm_compute in Hin. discriminate. }
  assert (getCredential (Fixture.security_module true [Fixture.AUTH_SYS]) ()
            Fixture.am_args CredentialRequestAM
          = Returned (Fixture.security_module true [Fixture.AUTH_SYS],
                      ([], Some invalid_authentication_method))) as Hcall
    by reflexivity.
  split; [by eexists|].
  intros m' status. rewrite Hcall. unfold credRespWithStatus. simpl. discriminate.
Qed.

Lemma GetMethod_only_request_credentials_witness :
  GetMethod 101 = (Some MethodRequestCredentials, None)
  ∧ GetMethod 102
    = (None, Some (errors_New "invalid method ID 102 for module agent_security"))
  ∧ HandleCall (<[Fixture.AUTH_AM := CredentialRequestAM]>
                  (<[Fixture.AUTH_SYS := CredentialRequestUnix]> ∅))
      (Fixture.security_module true [Fixture.AUTH_SYS]) () MethodRequestValidFlavors
      [x01]
    = Returned (Fixture.security_module true [Fixture.AUTH_SYS], ([x01], None)).
Proof.
  destruct (GetMethod_only_request_credentials 101) as (Hcreds & _).
  destruct (GetMethod_only_request_credentials 102) as (_ & _ & Hvalid & Hcall).
  split; [by apply Hcreds|]. split; [by apply Hvalid|].
  destruct (Hcall (<[Fixture.AUTH_AM := CredentialRequestAM]>
                     (<[Fixture.AUTH_SYS := CredentialRequestUnix]> ∅))
              (Fixture.security_module true [Fixture.AUTH_SYS]) () [x01]
              Fixture.unix_args CredentialRequestUnix) as [_ ->];
    reflexivity.
Defined.

End Examples.

End DispatcherSpec.


(** ** Token verifier: the signed mode and the calls on the signer *)

Module SignedTokenSpec.
Import Go Auth GoFacts Terms.

Section Signed.
Context `{Proto} `{TokenSigner}.

Lemma VerifyToken_signed (k : Key) (token : Token) (sig : bytes)
    (validAuthFlavors : list Z) (tokenBytes : bytes) :
  proto_Marshal_Token token = (tokenBytes, None) →
  to_uint32 (Token_Flavor token) ∈ validAuthFlavors →
  VerifyToken (Some k) token sig validAuthFlavors
  = ([CallVerify tokenBytes sig],
     errors_Wrap (Verify k tokenBytes sig) "token verification Failed").
Proof.
  intros Hm Hf%slices_Contains_elem_of. unfold VerifyToken. by rewrite Hm, Hf.
Qed.

Lemma VerifierFromToken_signed (k : Key) (token : Token) (tokenBytes : bytes) :
  proto_Marshal_Token token = (tokenBytes, None) →
  VerifierFromToken (Some k) token
  = ([CallSign tokenBytes],
     ((Sign k tokenBytes).1, errors_Wrap (Sign k tokenBytes).2 "signing verifier failed")).
Proof.
  intros Hm. unfold VerifierFromToken. rewrite Hm. simpl.
  unfold mbind, Traced_bind, signer_Sign. by destruct (Sign k tokenBytes).
Qed.

Lemma VerifierFromToken_marshal_error (key : option Key) (token : Token)
    (tokenBytes : bytes) (e : error) :
  proto_Marshal_Token token = (tokenBytes, Some e) →
  VerifierFromToken key token = ([], ([], Some (errors_WithMessage e "unable to marshal Token"))).
Proof. intros Hm. unfold VerifierFromToken. by rewrite Hm. Qed.

(** X1.  With a key, for a token that serialises and whose flavor is
    valid, [VerifyToken] succeeds exactly when the signer verifies the
    verifier against the serialised token; it makes that one call on the
    signer and no hash; the signer's error comes back wrapped. *)
Theorem VerifyToken_signed_iff_signer_verifies (k : Key) (token : Token) (sig : bytes)
    (validAuthFlavors : list Z) (tokenBytes : bytes) :
  proto_Marshal_Token token = (tokenBytes, None) →
  to_uint32 (Token_Flavor token) ∈ validAuthFlavors →
  (result (VerifyToken (Some k) token sig validAuthFlavors) = None
   ↔ Verify k tokenBytes sig = None)
  ∧ calls (VerifyToken (Some k) token sig validAuthFlavors) = [CallVerify tokenBytes sig]
  ∧ (∀ e, Verify k tokenBytes sig = Some e →
       result (VerifyToken (Some k) token sig validAuthFlavors)
       = Some (errors_WithMessage e "token verification Failed")).
Proof.
  intros Hm Hf. rewrite (VerifyToken_signed _ _ _ _ _ Hm Hf). simpl.
  split; [|split; [done|]].
  - by destruct (Verify k tokenBytes sig).
  - by intros e ->.
Qed.

(** X2.  Round trip in signed mode: when the signer signs the serialised
    token with [sk] and verifies that signature with [pk],
    [VerifierFromToken] with [sk] returns the signature without error and
    [VerifyToken] with [pk] accepts it, the token's own flavor being the
    only valid one; a verifier that the signer refuses is refused. *)
Theorem VerifierFromToken_VerifyToken_signed_round_trip (sk pk : Key) (token : Token)
    (tokenBytes sig : bytes) :
  proto_Marshal_Token token = (tokenBytes, None) →
  Sign sk tokenBytes = (sig, None) →
  Verify pk tokenBytes sig = None →
  result (VerifierFromToken (Some sk) token) = (sig, None)
  ∧ result (VerifyToken (Some pk) token
              (result (VerifierFromToken (Some sk) token)).1
              [to_uint32 (Token_Flavor token)]) = None
  ∧ (∀ sig', Verify pk tokenBytes sig' ≠ None →
       result (VerifyToken (Some pk) token sig' [to_uint32 (Token_Flavor token)]) ≠ None).
Proof.
  intros Hm Hs Hv.
  assert (to_uint32 (Token_Flavor token) ∈ [to_uint32 (Token_Flavor token)]) as Hself
    by (by apply list_elem_of_singleton).
  rewrite (VerifierFromToken_signed _ _ _ Hm), Hs. simpl.
  split; [done|]. split.
  - rewrite (VerifyToken_signed _ _ _ _ _ Hm Hself). simpl. by rewrite Hv.
  - intros sig' Hrefused. rewrite (VerifyToken_signed _ _ _ _ _ Hm Hself). simpl.
    by destruct (Verify pk tokenBytes sig').
Qed.

(** X3.  Neither function calls the signer more than once, and each call
    is on the serialised token: [VerifyToken] hashes only without a key and
    verifies only with one, and never signs; [VerifierFromToken] hashes
    without a key and signs with one, and never verifies; a token that does
    not serialise reaches the signer in neither. *)
Theorem signer_called_at_most_once_on_serialised_token (key : option Key) (token : Token)
    (sig : bytes) (validAuthFlavors : list Z) :
  (calls (VerifyToken key token sig validAuthFlavors) = []
   ∨ (key = None
      ∧ calls (VerifyToken key token sig validAuthFlavors)
        = [CallHash (proto_Marshal_Token token).1])
   ∨ (key ≠ None
      ∧ calls (VerifyToken key token sig validAuthFlavors)
        = [CallVerify (proto_Marshal_Token token).1 sig]))
  ∧ (calls (VerifierFromToken key token)
     = match (proto_Marshal_Token token).2, key with
       | Some _, _ => []
       | None, None => [CallHash (proto_Marshal_Token token).1]
       | None, Some _ => [CallSign (proto_Marshal_Token token).1]
       end)
  ∧ ((proto_Marshal_Token token).2 ≠ None →
     calls (VerifyToken key token sig validAuthFlavors) = []).
Proof.
  destruct (proto_Marshal_Token token) as [tokenBytes [e|]] eqn:Hm; simpl.
  - rewrite (TokenSpec.VerifyToken_marshal_error _ _ _ _ _ _ Hm).
    rewrite (VerifierFromToken_marshal_error _ _ _ _ Hm). by repeat split; try left.
  - split; [|split; [|done]].
    + destruct (decide (to_uint32 (Token_Flavor token) ∈ validAuthFlavors)) as [Hin|Hout].
      * destruct key as [k|].
        -- right. right. split; [done|]. by rewrite (VerifyToken_signed _ _ _ _ _ Hm Hin).
        -- right. left. split; [done|].
           unfold VerifyToken. apply slices_Contains_elem_of in Hin. rewrite Hm, Hin. simpl.
           unfold mbind, Traced_bind, signer_Hash.
           destruct (Hash tokenBytes) as [digest [e|]]; [done|].
           by destruct (bytes_Equal digest sig).
      * left. apply slices_Contains_not_elem_of in Hout.
        unfold VerifyToken. by rewrite Hm, Hout.
    + destruct key as [k|].
      * by rewrite (VerifierFromToken_signed _ _ _ Hm).
      * unfold VerifierFromToken. by rewrite Hm.
Qed.

End Signed.

Lemma VerifyToken_signed_iff_signer_verifies_witness :
  (result (@VerifyToken Fixture.proto Fixture.signer (Some [x2a]) Fixture.am_token
             Fixture.am_signature [Fixture.AUTH_AM]) = None
   ↔ @Verify Fixture.signer [x2a] [x02; x01; x02; x03] Fixture.am_signature = None)
  ∧ calls (@VerifyToken Fixture.proto Fixture.signer (Some [x2a]) Fixture.am_token
             Fixture.am_signature [Fixture.AUTH_AM])
    = [CallVerify [x02; x01; x02; x03] Fixture.am_signature].
Proof.
  destruct (@VerifyToken_signed_iff_signer_verifies Fixture.proto Fixture.signer [x2a]
              Fixture.am_token Fixture.am_signature [Fixture.AUTH_AM] [x02; x01; x02; x03])
    as (Hiff & Hcalls & _).
  - reflexivity.
  - apply list_elem_of_here.
  - by split.
Defined.

Lemma VerifierFromToken_VerifyToken_signed_round_trip_witness :
  result (@VerifierFromToken Fixture.proto Fixture.signer (Some [x2a]) Fixture.am_token)
  = (Fixture.am_signature, None)
  ∧ result (@VerifyToken Fixture.proto Fixture.signer (Some [x2a]) Fixture.am_token
              (result (@VerifierFromToken Fixture.proto Fixture.signer (Some [x2a])
                         Fixture.am_token)).1
              [to_uint32 (Token_Flavor Fixture.am_token)]) = None.
Proof.
  destruct (@VerifierFromToken_VerifyToken_signed_round_trip Fixture.proto Fixture.signer
              [x2a] [x2a] Fixture.am_token [x02; x01; x02; x03] Fixture.am_signature)
    as (Hsig & Hok & _); [reflexivity..|].
  by split.
Defined.

End SignedTokenSpec.

(** ** Flavor names: concatenation, and use by the verifier *)

Module FlavorListSpec.
Import Go Auth GoFacts Terms.

Section Parsing.
Context `{Proto}.

Lemma first_unrecognized (names : list string) :
  Forall recognized names
  ∨ ∃ pre s post, names = pre ++ s :: post ∧ Forall recognized pre ∧ ¬ recognized s.
Proof.
  induction names as [|s names IH]; [by left|].
  destruct (Flavor_value !! ("AUTH_" +:+ s)) as [flavor|] eqn:Hs.
  - destruct IH as [Hall|(pre & s' & post & -> & Hpre & Hs')].
    + left. constructor; [by eexists | done].
    + right. exists (s :: pre), s', post. split; [done|].
      split; [|done]. constructor; [by eexists | done].
  - right. exists [], s, names. split; [done|]. split; [constructor|].
    intros [flavor Hflavor]. unfold recognized in *. congruence.
Qed.

Lemma ParseValidAuthFlavors_of_flavors (names : list string) (flavors : list Z) :
  Forall2 (λ s flavor, Flavor_value !! ("AUTH_" +:+ s) = Some flavor) names flavors →
  ParseValidAuthFlavors names = (to_uint32 <$> flavors, None).
Proof.
  intros Hfl. unfold ParseValidAuthFlavors.
  by rewrite (FlavorSpec.ParseValidAuthFlavors_loop_fills _ _ _ _ Hfl)
    by (by rewrite length_replicate).
Qed.

Lemma recognized_flavors (names : list string) :
  Forall recognized names →
  ∃ flavors,
    Forall2 (λ s flavor, Flavor_value !! ("AUTH_" +:+ s) = Some flavor) names flavors.
Proof.
  induction 1 as [|s l [flavor Hs] _ [flavors IH]].
  - exists []. constructor.
  - exists (flavor :: flavors). by constructor.
Qed.

Lemma ParseValidAuthFlavors_ok_inv (names : list string) (validAuthFlavors : list Z) :
  ParseValidAuthFlavors names = (validAuthFlavors, None) →
  ∃ flavors,
    Forall2 (λ s flavor, Flavor_value !! ("AUTH_" +:+ s) = Some flavor) names flavors
    ∧ validAuthFlavors = to_uint32 <$> flavors.
Proof.
  intros Hparse. destruct (first_unrecognized names) as [Hall|(pre & s & post & -> & Hpre & Hs)].
  - destruct (recognized_flavors _ Hall) as [flavors Hfl]. exists flavors. split; [done|].
    rewrite (ParseValidAuthFlavors_of_flavors _ _ Hfl) in Hparse. congruence.
  - unfold ParseValidAuthFlavors in Hparse.
    by rewrite (FlavorSpec.ParseValidAuthFlavors_loop_stops _ _ _ _ _ Hpre Hs) in Hparse.
Qed.

Lemma ParseValidAuthFlavors_error_inv (names : list string) (l : list Z) (e : error) :
  ParseValidAuthFlavors names = (l, Some e) →
  l = [] ∧ ∃ pre s post,
    names = pre ++ s :: post ∧ Forall recognized pre ∧ ¬ recognized s ∧ e = unrecognized s.
Proof.
  intros Hparse. destruct (first_unrecognized names) as [Hall|(pre & s & post & -> & Hpre & Hs)].
  - destruct (recognized_flavors _ Hall) as [flavors Hfl].
    by rewrite (ParseValidAuthFlavors_of_flavors _ _ Hfl) in Hparse.
  - unfold ParseValidAuthFlavors in Hparse.
    rewrite (FlavorSpec.ParseValidAuthFlavors_loop_stops _ _ _ _ _ Hpre Hs) in Hparse.
    injection Hparse as <- <-. split; [done|]. by exists pre, s, post.
Qed.

(** X4.  [ParseValidAuthFlavors] on two lists one after the other: when
    both parse, the result is the first result followed by the second;
    when the first does not parse, its error is the error of the whole;
    when only the second does not parse, the error is the second's. *)
Theorem ParseValidAuthFlavors_app (a b : list string) :
  (∀ la lb,
     ParseValidAuthFlavors a = (la, None) → ParseValidAuthFlavors b = (lb, None) →
     ParseValidAuthFlavors (a ++ b) = (la ++ lb, None))
  ∧ (∀ la e,
       ParseValidAuthFlavors a = (la, Some e) →
       ParseValidAuthFlavors (a ++ b) = ([], Some e))
  ∧ (∀ la lb e,
       ParseValidAuthFlavors a = (la, None) → ParseValidAuthFlavors b = (lb, Some e) →
       ParseValidAuthFlavors (a ++ b) = ([], Some e)).
Proof.
  split; [|split].
  - intros la lb (fa & Hfa & ->)%ParseValidAuthFlavors_ok_inv
      (fb & Hfb & ->)%ParseValidAuthFlavors_ok_inv.
    rewrite (ParseValidAuthFlavors_of_flavors (a ++ b) (fa ++ fb)).
    + by rewrite fmap_app.
    + by apply Forall2_app.
  - intros la e (_ & pre & s & post & -> & Hpre & Hs & ->)%ParseValidAuthFlavors_error_inv.
    unfold ParseValidAuthFlavors. rewrite <- app_assoc. simpl.
    by apply FlavorSpec.ParseValidAuthFlavors_loop_stops.
  - intros la lb e (fa & Hfa & ->)%ParseValidAuthFlavors_ok_inv
      (_ & pre & s & post & -> & Hpre & Hs & ->)%ParseValidAuthFlavors_error_inv.
    unfold ParseValidAuthFlavors. rewrite app_assoc.
    apply FlavorSpec.ParseValidAuthFlavors_loop_stops; [|done].
    apply Forall_app. split; [|done].
    clear -Hfa. induction Hfa; constructor; [by eexists | done].
Qed.

(** X5.  The list that [ParseValidAuthFlavors] returns for the
    configured names is what [VerifyToken] needs: a token that serialises
    passes the flavor check when one of the names denotes its flavor, and
    gets the unsupported-flavor error, with no call on the signer, when no
    name denotes a flavor equal to its flavor as [uint32]. *)
Theorem ParseValidAuthFlavors_feeds_VerifyToken `{TokenSigner} (names : list string)
    (validAuthFlavors : list Z) (key : option Key) (token : Token) (sig tokenBytes : bytes) :
  ParseValidAuthFlavors names = (validAuthFlavors, None) →
  proto_Marshal_Token token = (tokenBytes, None) →
  (∀ s, s ∈ names → Flavor_value !! ("AUTH_" +:+ s) = Some (Token_Flavor token) →
     VerifyToken key token sig validAuthFlavors
     = VerifyToken key token sig [to_uint32 (Token_Flavor token)]
     ∧ calls (VerifyToken key token sig validAuthFlavors) ≠ [])
  ∧ ((∀ s flavor, s ∈ names → Flavor_value !! ("AUTH_" +:+ s) = Some flavor →
        to_uint32 flavor ≠ to_uint32 (Token_Flavor token)) →
     VerifyToken key token sig validAuthFlavors = ([], Some unsupported_flavor)).
Proof.
  intros (flavors & Hfl & ->)%ParseValidAuthFlavors_ok_inv Hm. split.
  - intros s [i Hi]%list_elem_of_lookup Hs.
    destruct (Forall2_lookup_l _ _ _ _ _ Hfl Hi) as (flavor & Hflavor & Hs').
    assert (Some flavor = Some (Token_Flavor token)) as [= ->]
      by (etransitivity; [symmetry; exact Hs' | exact Hs]).
    assert (slices_Contains (to_uint32 <$> flavors) (to_uint32 (Token_Flavor token)) = true)
      as Hin.
    { apply slices_Contains_elem_of, list_elem_of_fmap. eexists. split; [done|].
      by eapply list_elem_of_lookup_2. }
    assert (slices_Contains [to_uint32 (Token_Flavor token)]
              (to_uint32 (Token_Flavor token)) = true) as Hself.
    { by apply slices_Contains_elem_of, list_elem_of_singleton. }
    unfold VerifyToken. rewrite Hm, Hin, Hself. simpl. split; [done|].
    destruct key as [k|]; [done|].
    unfold mbind, Traced_bind, signer_Hash.
    destruct (Hash tokenBytes) as [digest [e|]]; [done|].
    by destruct (bytes_Equal digest sig).
  - intros Hnone. apply (TokenSpec.VerifyToken_unlisted _ _ _ _ _ Hm).
    intros (flavor & Heq & [i Hi]%list_elem_of_lookup)%list_elem_of_fmap.
    destruct (Forall2_lookup_r _ _ _ _ _ Hfl Hi) as (s & Hs & Hflavor).
    cbv beta in Hflavor.
    apply (Hnone s flavor); [by eapply list_elem_of_lookup_2 | done | done].
Qed.

End Parsing.

Lemma ParseValidAuthFlavors_feeds_VerifyToken_witness :
  @VerifyToken Fixture.proto Fixture.signer None Fixture.am_token [x03; x02; x01; x02] [1; 2]
  = ([CallHash [x02; x01; x02; x03]], None)
  ∧ @VerifyToken Fixture.proto Fixture.signer None Fixture.am_token [x03; x02; x01; x02] [1]
    = ([], Some unsupported_flavor).
Proof.
  destruct (@ParseValidAuthFlavors_feeds_VerifyToken Fixture.proto Fixture.signer
              ["SYS"; "AM"] [1; 2] None Fixture.am_token [x03; x02; x01; x02]
              [x02; x01; x02; x03]) as [Hpass _]; [reflexivity..|].
  destruct (@ParseValidAuthFlavors_feeds_VerifyToken Fixture.proto Fixture.signer
              ["SYS"] [1] None Fixture.am_token [x03; x02; x01; x02]
              [x02; x01; x02; x03]) as [_ Hreject]; [reflexivity..|].
  split.
  - destruct (Hpass "AM") as [-> _]; [|reflexivity..].
    apply list_elem_of_further, list_elem_of_here.
  - apply Hreject. intros s flavor ->%list_elem_of_singleton [= <-]. discriminate.
Defined.

End FlavorListSpec.

(** ** Flavor registry: the order of the factories *)

Module RegistryOrderSpec.
Import Go Auth Terms.

Section Registry.
Context `{Proto} {F R : Type} `{CredentialRequestFactory F R}.

Lemma generateAuthMap_returned_or_panicked (reqs : list F) :
  (NoDup (GetAuthFlavor <$> reqs) ∧ ∃ am, generateAuthMap reqs = Returned am)
  ∨ (¬ NoDup (GetAuthFlavor <$> reqs) ∧ ∃ e, generateAuthMap reqs = Panicked e).
Proof.
  unfold generateAuthMap.
  destruct (generateAuthMap_loop reqs ∅) as [am|e] eqn:Hloop.
  - left. split; [|by eexists].
    by apply (RegistrySpec.generateAuthMap_loop_returned _ _ _ Hloop).
  - right. split; [|by eexists]. intros Hnd.
    destruct (RegistrySpec.generateAuthMap_loop_binds reqs ∅ Hnd) as (am & Hret & _); [done|].
    congruence.
Qed.

(** X6.  The registry does not depend on the order of the list: for two
    lists with the same factories in another order, [generateAuthMap]
    panics on both or on neither, and when it returns, it returns the same
    map. *)
Theorem generateAuthMap_order_irrelevant (reqs reqs' : list F) :
  reqs ≡ₚ reqs' →
  ((∃ e, generateAuthMap reqs = Panicked e) ↔ (∃ e, generateAuthMap reqs' = Panicked e))
  ∧ (∀ am, generateAuthMap reqs = Returned am → generateAuthMap reqs' = Returned am).
Proof.
  intros Hperm.
  assert (NoDup (GetAuthFlavor <$> reqs) ↔ NoDup (GetAuthFlavor <$> reqs')) as Hnd
    by (by rewrite Hperm).
  split.
  - destruct (generateAuthMap_returned_or_panicked reqs) as [[Hn [am Ham]]|[Hn [e He]]];
      destruct (generateAuthMap_returned_or_panicked reqs') as [[Hn' [am' Ham']]|[Hn' [e' He']]];
      rewrite ?Ham, ?He, ?Ham', ?He'.
    + split; intros [? [=]].
    + destruct Hn'. by apply Hnd.
    + destruct Hn. by apply Hnd.
    + split; intros _; by eexists.
  - unfold generateAuthMap. intros am Hret.
    destruct (RegistrySpec.generateAuthMap_loop_returned _ _ _ Hret) as [Hn _].
    destruct (RegistrySpec.generateAuthMap_loop_binds reqs ∅ Hn) as (am0 & Hret0 & Hb & Hr);
      [done|].
    assert (am0 = am) as -> by congruence.
    destruct (RegistrySpec.generateAuthMap_loop_binds reqs' ∅ (proj1 Hnd Hn))
      as (am' & -> & Hb' & Hr'); [done|].
    f_equal. apply map_eq. intros k.
    destruct (decide (k ∈ GetAuthFlavor <$> reqs)) as [Hin|Hout].
    + apply list_elem_of_fmap in Hin as (g & -> & Hg).
      transitivity (Some g); [apply Hb'; by rewrite <- Hperm | symmetry; by apply Hb].
    + transitivity ((∅ : gmap Z F) !! k); [apply Hr' | symmetry; by apply Hr].
      by rewrite <- Hperm.
Qed.

End Registry.

Lemma generateAuthMap_order_irrelevant_witness :
  @generateAuthMap Fixture.proto _ _ Fixture.factory_ops
    [Agent.CredentialRequestAM; Agent.CredentialRequestUnix]
  = Returned (<[Fixture.AUTH_AM := Agent.CredentialRequestAM]>
               (<[Fixture.AUTH_SYS := Agent.CredentialRequestUnix]> ∅)).
Proof.
  destruct (@generateAuthMap_order_irrelevant Fixture.proto _ _ Fixture.factory_ops
              Agent.CredentialRequests
              [Agent.CredentialRequestAM; Agent.CredentialRequestUnix]) as [_ Hsame].
  - apply perm_swap.
  - apply Hsame. reflexivity.
Defined.

End RegistryOrderSpec.

(** ** The security module: fetching the valid flavors *)

Module ValidFlavorsSpec.
Import Go Auth Agent Terms.

Lemma to_int32_to_uint32 (f : Z) : - 2 ^ 31 ≤ f < 2 ^ 31 → to_int32 (to_uint32 f) = f.
Proof.
  intros Hf. unfold to_int32, to_uint32.
  rewrite Zplus_mod_idemp_l, Z.mod_small; lia.
Qed.

Section Fetch.
Context `{Env}.

Lemma retrieveAuthFromServer_frame (m m' : SecurityModule) (err : option error) :
  retrieveAuthFromServer m = (m', err) →
  config m' = config m ∧ signCredential m' = signCredential m ∧ log m' = log m.
Proof.
  unfold retrieveAuthFromServer.
  destruct (InfoCache_GetAttachInfo (sys (config m))) as [l [e|]]; simpl.
  - by intros [= <- _].
  - destruct (to_int32 <$> l) as [|x fl]; simpl; by intros [= <- _].
Qed.

Lemma ensureValidAuthFlavors_frame (m m' : SecurityModule) (err : option error) :
  ensureValidAuthFlavors m = (m', err) →
  config m' = config m ∧ signCredential m' = signCredential m ∧ log m' = log m.
Proof.
  unfold ensureValidAuthFlavors. destruct (length (validAuthFlavors m) =? 0)%nat.
  - apply retrieveAuthFromServer_frame.
  - by intros [= <- _].
Qed.

Lemma retrieveAuthFromServer_ok (m m' : SecurityModule) :
  retrieveAuthFromServer m = (m', None) →
  validAuthFlavors m' ≠ []
  ∧ ∃ l, InfoCache_GetAttachInfo (sys (config m)) = (l, None)
         ∧ validAuthFlavors m' = to_int32 <$> l.
Proof.
  unfold retrieveAuthFromServer.
  destruct (InfoCache_GetAttachInfo (sys (config m))) as [l [e|]]; simpl; [done|].
  destruct (to_int32 <$> l) as [|x fl] eqn:Hl; simpl; [done|].
  intros [= <-]. simpl. split; [done|]. by exists l.
Qed.

Lemma ensureValidAuthFlavors_nonempty (m : SecurityModule) :
  validAuthFlavors m ≠ [] → ensureValidAuthFlavors m = (m, None).
Proof.
  unfold ensureValidAuthFlavors. by destruct (validAuthFlavors m).
Qed.

Lemma ensureValidAuthFlavors_ok (m m' : SecurityModule) :
  ensureValidAuthFlavors m = (m', None) → validAuthFlavors m' ≠ [].
Proof.
  unfold ensureValidAuthFlavors. destruct (validAuthFlavors m) as [|x fl] eqn:Hfl; simpl.
  - by intros [? _]%retrieveAuthFromServer_ok.
  - intros [= <-]. by rewrite Hfl.
Qed.

(** X7.  [retrieveAuthFromServer] changes nothing of the module but its
    valid flavors.  It returns no error only with a non-empty list in the
    module, the server's list converted to flavors; a failure of the
    attach-info lookup leaves the module as it was and comes back wrapped;
    flavors that the server sent as [uint32] values of [int32] flavors are
    stored as those flavors. *)
Theorem retrieveAuthFromServer_populates (m m' : SecurityModule) (err : option error) :
  retrieveAuthFromServer m = (m', err) →
  (config m' = config m ∧ signCredential m' = signCredential m ∧ log m' = log m)
  ∧ (err = None →
     validAuthFlavors m' ≠ []
     ∧ ∃ l, InfoCache_GetAttachInfo (sys (config m)) = (l, None)
            ∧ validAuthFlavors m' = to_int32 <$> l)
  ∧ (∀ l e, InfoCache_GetAttachInfo (sys (config m)) = (l, Some e) →
       m' = m ∧ err = Some (errors_WithMessage e "failed to get attach info"))
  ∧ (InfoCache_GetAttachInfo (sys (config m)) = ([], None) →
     validAuthFlavors m' = [] ∧ err ≠ None)
  ∧ (∀ flavors,
       Forall (λ f, - 2 ^ 31 ≤ f < 2 ^ 31) flavors → flavors ≠ [] →
       InfoCache_GetAttachInfo (sys (config m)) = (to_uint32 <$> flavors, None) →
       validAuthFlavors m' = flavors ∧ err = None).
Proof.
  intros Hcall. split; [by eapply retrieveAuthFromServer_frame|].
  split; [intros ->; by apply retrieveAuthFromServer_ok|].
  unfold retrieveAuthFromServer in Hcall. split; [|split].
  - intros l e Hl. rewrite Hl in Hcall. simpl in Hcall. by injection Hcall as <- <-.
  - intros Hl. rewrite Hl in Hcall. simpl in Hcall. by injection Hcall as <- <-.
  - intros flavors Hrange Hne Hl. rewrite Hl in Hcall.
    assert (to_int32 <$> (to_uint32 <$> flavors) = flavors) as Hback.
    { clear -Hrange. induction Hrange as [|f fl Hf _ IH]; [done|].
      rewrite !fmap_cons. by rewrite to_int32_to_uint32, IH. }
    simpl in Hcall. rewrite Hback in Hcall.
    destruct flavors as [|f fl]; [done|]. simpl in Hcall. by injection Hcall as <- <-.
Qed.

(** X8.  The valid flavors are fetched once.  When the module holds
    flavors, neither [getValidAuthFlavors] nor the opening of
    [getCredential] changes the module, and the answer is the marshaled
    list the module holds; and after a fetch that succeeded, the module it
    left is in that state, so that on it both functions return what they
    returned on the module before the fetch. *)
Theorem valid_flavors_fetched_once (m m' : SecurityModule) :
  ensureValidAuthFlavors m = (m', None) →
  validAuthFlavors m' ≠ []
  ∧ ensureValidAuthFlavors m' = (m', None)
  ∧ getValidAuthFlavors m'
    = (m', drpc_Marshal_GetValidAuthResp
             {| GetValidAuthResp_ValidAuthFlavors := validAuthFlavors m' |})
  ∧ getValidAuthFlavors m = getValidAuthFlavors m'
  ∧ (∀ session args req,
       getCredential m session args req = getCredential m' session args req)
  ∧ (validAuthFlavors m ≠ [] → m' = m).
Proof.
  intros Hens. pose proof (ensureValidAuthFlavors_ok _ _ Hens) as Hne.
  pose proof (ensureValidAuthFlavors_nonempty _ Hne) as Hens'.
  split; [done|]. split; [done|].
  assert (getValidAuthFlavors m'
          = (m', drpc_Marshal_GetValidAuthResp
                   {| GetValidAuthResp_ValidAuthFlavors := validAuthFlavors m' |})) as Hget
    by (unfold getValidAuthFlavors; by rewrite Hens').
  split; [done|]. split; [|split].
  - rewrite Hget. unfold getValidAuthFlavors. by rewrite Hens.
  - intros session args req. unfold getCredential. by rewrite Hens, Hens'.
  - intros Hm. rewrite (ensureValidAuthFlavors_nonempty _ Hm) in Hens. congruence.
Qed.

(** X17.  A fetch that fails is not remembered.  The opening of
    [getCredential] and of [getValidAuthFlavors] fails only on a module
    without flavors, and leaves it without flavors, so that the next call
    fetches again; both functions then return the wrapped error and no
    response bytes. *)
Theorem failed_fetch_not_remembered (m m' : SecurityModule) (e : error) :
  ensureValidAuthFlavors m = (m', Some e) →
  validAuthFlavors m = []
  ∧ validAuthFlavors m' = []
  ∧ ensureValidAuthFlavors m' = retrieveAuthFromServer m'
  ∧ getValidAuthFlavors m
    = (m', ([], Some (errors_WithMessage e "error in retrieving auth flavors from server")))
  ∧ (∀ session args req,
       getCredential m session args req
       = Returned (m', ([], Some (errors_WithMessage e
                                    "error in retrieving auth flavors from server")))).
Proof.
  intros Hens.
  assert (validAuthFlavors m = []) as Hm.
  { destruct (validAuthFlavors m) as [|x fl] eqn:Hfl; [done|].
    rewrite ensureValidAuthFlavors_nonempty in Hens; [done|]. by rewrite Hfl. }
  assert (validAuthFlavors m' = []) as Hm'.
  { unfold ensureValidAuthFlavors in Hens. rewrite Hm in Hens. simpl in Hens.
    unfold retrieveAuthFromServer in Hens.
    destruct (InfoCache_GetAttachInfo (sys (config m))) as [l [e'|]]; simpl in Hens.
    - injection Hens as <- _. done.
    - destruct (to_int32 <$> l) as [|x fl] eqn:Hl; simpl in Hens; [|done].
      by injection Hens as <- _. }
  split; [done|]. split; [done|]. split; [|split].
  - unfold ensureValidAuthFlavors. by rewrite Hm'.
  - unfold getValidAuthFlavors. by rewrite Hens.
  - intros session args req. unfold getCredential. by rewrite Hens.
Qed.

End Fetch.

Lemma failed_fetch_not_remembered_witness :
  @getCredential MoreFixture.failing_env (MoreFixture.failing_module []) ()
    Fixture.unix_args CredentialRequestUnix
  = Returned
      (MoreFixture.failing_module [],
       ([], Some (errors_WithMessage
                    (errors_WithMessage (errors_New "connection refused")
                       "failed to get attach info")
                    "error in retrieving auth flavors from server"))).
Proof.
  destruct (@failed_fetch_not_remembered MoreFixture.failing_env
              (MoreFixture.failing_module []) (MoreFixture.failing_module [])
              (errors_WithMessage (errors_New "connection refused")
                 "failed to get attach info"))
    as (_ & _ & _ & _ & Hcall); [reflexivity|].
  apply Hcall.
Defined.

Lemma retrieveAuthFromServer_populates_witness :
  @validAuthFlavors Fixture.env
    (@retrieveAuthFromServer Fixture.env (Fixture.security_module true [])).1
  = [Fixture.AUTH_SYS]
  ∧ (@retrieveAuthFromServer Fixture.env (Fixture.security_module true [])).2 = None.
Proof.
  destruct (@retrieveAuthFromServer_populates Fixture.env
              (Fixture.security_module true [])
              (Fixture.security_module true [Fixture.AUTH_SYS]) None)
    as (_ & _ & _ & _ & Hround); [reflexivity|].
  destruct (Hround [Fixture.AUTH_SYS]) as [Hfl Herr]; [|done|reflexivity|by split].
  constructor; [unfold Fixture.AUTH_SYS; lia | constructor].
Defined.

Lemma valid_flavors_fetched_once_witness :
  @getValidAuthFlavors Fixture.env (Fixture.security_module true [])
  = (Fixture.security_module true [Fixture.AUTH_SYS], ([x01], None))
  ∧ @getValidAuthFlavors Fixture.env (Fixture.security_module true [Fixture.AUTH_SYS])
    = (Fixture.security_module true [Fixture.AUTH_SYS], ([x01], None)).
Proof.
  destruct (@valid_flavors_fetched_once Fixture.env
              (Fixture.security_module true [])
              (Fixture.security_module true [Fixture.AUTH_SYS]))
    as (_ & _ & Hget & Hsame & _); [reflexivity|].
  split; [rewrite Hsame|]; exact Hget.
Defined.

End ValidFlavorsSpec.

(** ** The security module: issuing a credential *)

Module IssueSpec.
Import Go Auth Agent Terms.

Section Issue.
Context `{Env}.

(** What [getCredential] does once it holds the signing key. *)
Lemma getCredential_with_key (m m' : SecurityModule) (session : Session) (args : AuthArgs)
    (req : Request) (signingKey : SigningKey) :
  ensureValidAuthFlavors m = (m', None) →
  AuthArgs_Flavor args ∈ validAuthFlavors m' →
  TransportConfig_PrivateKey (transport (config m')) = (signingKey, None) →
  getCredential m session args req
  = let '(req, err) :=
      InitCredentialRequest req (credentials (config m')) session
        (AuthArgs_Data args) signingKey in
    match err with
    | Some e =>
      if errors_Is e (daos_Status MiscError) then
        match e with
        | daos_Status status => Returned (m', credRespWithStatus status)
        | _ => Panicked (errors_New "interface conversion: error is not daos.Status")
        end
      else
        Returned (log_Errorf m' "Unable to get credentials for client socket: %s" e,
                  ([], Some e))
    | None =>
      let '(cred, err) := signCredential m' req in
      match err with
      | Some e =>
        Returned (log_Errorf m' "failed to get user credential: %s" e,
                  credRespWithStatus MiscError)
      | None =>
        Returned (m', drpc_Marshal_GetCredResp
                        {| GetCredResp_Status := 0; GetCredResp_Cred := cred |})
      end
    end.
Proof.
  intros Hens Hin%GoFacts.slices_Contains_elem_of Hkey.
  unfold getCredential. rewrite Hens, Hin. simpl. by rewrite Hkey.
Qed.

Lemma errors_Is_status (e : error) (status : Z) :
  errors_Is e (daos_Status status) = true →
  e = daos_Status status ∨ ∃ cause msg, e = errors_WithMessage cause msg.
Proof.
  destruct e as [msg|cause msg|code|f]; simpl; try done.
  - intros _. right. by eexists _, _.
  - rewrite orb_false_r. intros ->%Z.eqb_eq. by left.
Qed.

(** X9.  Whatever [getCredential] returns, it leaves the configuration
    and the signer of the module as they were, appends at most one line to
    the log, and leaves the valid flavors as they were when there were
    some. *)
Theorem getCredential_frame (m m' : SecurityModule) (session : Session) (args : AuthArgs)
    (req : Request) (resp : bytes * option error) :
  getCredential m session args req = Returned (m', resp) →
  config m' = config m
  ∧ signCredential m' = signCredential m
  ∧ (log m' = log m ∨ ∃ line, log m' = log m ++ [line])
  ∧ (validAuthFlavors m ≠ [] → validAuthFlavors m' = validAuthFlavors m).
Proof.
  unfold getCredential.
  destruct (ensureValidAuthFlavors m) as [m1 err] eqn:Hens.
  destruct (ValidFlavorsSpec.ensureValidAuthFlavors_frame _ _ _ Hens) as (Hc & Hs & Hl).
  assert (validAuthFlavors m ≠ [] → validAuthFlavors m1 = validAuthFlavors m) as Hv.
  { intros Hne. rewrite (ValidFlavorsSpec.ensureValidAuthFlavors_nonempty _ Hne) in Hens.
    congruence. }
  assert (∀ format e,
            config (log_Errorf m1 format e) = config m
            ∧ signCredential (log_Errorf m1 format e) = signCredential m
            ∧ (log (log_Errorf m1 format e) = log m
               ∨ ∃ line, log (log_Errorf m1 format e) = log m ++ [line])
            ∧ (validAuthFlavors m ≠ [] →
               validAuthFlavors (log_Errorf m1 format e) = validAuthFlavors m)) as Hlogged.
  { intros format e. simpl. rewrite Hl. repeat split; [done..| |done].
    right. by eexists. }
  assert (config m1 = config m ∧ signCredential m1 = signCredential m
          ∧ (log m1 = log m ∨ ∃ line, log m1 = log m ++ [line])
          ∧ (validAuthFlavors m ≠ [] → validAuthFlavors m1 = validAuthFlavors m)) as Hsame
    by (repeat split; [done..|by left|done]).
  destruct err as [e|]; [by intros [= <- _]|].
  destruct (negb _); [by intros [= <- _]|].
  destruct (TransportConfig_PrivateKey _) as [signingKey [e|]]; [by intros [= <- _]|].
  destruct (InitCredentialRequest _ _ _ _ _) as [req' [e|]].
  - destruct (errors_Is e (daos_Status MiscError)); [|by intros [= <- _]].
    destruct e; try done. by intros [= <- _].
  - destruct (signCredential m1 req') as [c [e|]]; by intros [= <- _].
Qed.

(** X10.  After a successful [InitCredentialRequest], [getCredential]
    signs the request as the initialisation left it.  When the signer
    returns a credential, the answer is the marshaled response with that
    credential and status zero, and nothing is logged; when the signer
    fails, the failure is logged and the answer is the response with the
    status [daos.MiscError], not the signer's error. *)
Theorem getCredential_signs_initialised_request (m m' : SecurityModule) (session : Session)
    (args : AuthArgs) (req req' : Request) (signingKey : SigningKey) :
  ensureValidAuthFlavors m = (m', None) →
  AuthArgs_Flavor args ∈ validAuthFlavors m' →
  TransportConfig_PrivateKey (transport (config m')) = (signingKey, None) →
  InitCredentialRequest req (credentials (config m')) session (AuthArgs_Data args) signingKey
  = (req', None) →
  (∀ cred, signCredential m' req' = (cred, None) →
     getCredential m session args req
     = Returned (m', drpc_Marshal_GetCredResp
                       {| GetCredResp_Status := 0; GetCredResp_Cred := cred |}))
  ∧ (∀ cred e, signCredential m' req' = (cred, Some e) →
       getCredential m session args req
       = Returned (log_Errorf m' "failed to get user credential: %s" e,
                   drpc_Marshal_GetCredResp
                     {| GetCredResp_Status := MiscError; GetCredResp_Cred := None |})).
Proof.
  intros Hens Hin Hkey Hinit.
  rewrite (getCredential_with_key _ _ _ _ _ _ Hens Hin Hkey), Hinit.
  split; [intros cred Hsign | intros cred e Hsign]; by rewrite Hsign.
Qed.

(** X11.  When [InitCredentialRequest] fails, the signer is not called.
    An error that is not [daos.MiscError] and wraps none is logged and
    returned as it is, with no response bytes; the status
    [daos.MiscError] itself is answered with the response that carries it,
    and no error; an error that only wraps [daos.MiscError] makes the type
    assertion panic. *)
Theorem getCredential_init_failure (m m' : SecurityModule) (session : Session)
    (args : AuthArgs) (req req' : Request) (signingKey : SigningKey) (e : error) :
  ensureValidAuthFlavors m = (m', None) →
  AuthArgs_Flavor args ∈ validAuthFlavors m' →
  TransportConfig_PrivateKey (transport (config m')) = (signingKey, None) →
  InitCredentialRequest req (credentials (config m')) session (AuthArgs_Data args) signingKey
  = (req', Some e) →
  (errors_Is e (daos_Status MiscError) = false →
     getCredential m session args req
     = Returned (log_Errorf m' "Unable to get credentials for client socket: %s" e,
                 ([], Some e)))
  ∧ (e = daos_Status MiscError →
     getCredential m session args req
     = Returned (m', drpc_Marshal_GetCredResp
                       {| GetCredResp_Status := MiscError; GetCredResp_Cred := None |}))
  ∧ (errors_Is e (daos_Status MiscError) = true → e ≠ daos_Status MiscError →
     ∃ p, getCredential m session args req = Panicked p).
Proof.
  intros Hens Hin Hkey Hinit.
  rewrite (getCredential_with_key _ _ _ _ _ _ Hens Hin Hkey), Hinit.
  split; [|split].
  - by intros ->.
  - intros ->. simpl. by rewrite Z.eqb_refl.
  - intros His Hne. rewrite His.
    destruct (errors_Is_status _ _ His) as [->|(cause & msg & ->)]; [done|by eexists].
Qed.

End Issue.

Lemma getCredential_frame_witness :
  @config Fixture.env
    (@log_Errorf Fixture.env (Fixture.security_module false [Fixture.AUTH_SYS])
       "failed to get signing key: %s" (errors_New "no private key"))
  = @config Fixture.env (Fixture.security_module false [Fixture.AUTH_SYS])
  ∧ @validAuthFlavors Fixture.env
      (@log_Errorf Fixture.env (Fixture.security_module false [Fixture.AUTH_SYS])
         "failed to get signing key: %s" (errors_New "no private key"))
    = [Fixture.AUTH_SYS].
Proof.
  destruct (@getCredential_frame Fixture.env
              (Fixture.security_module false [Fixture.AUTH_SYS])
              (@log_Errorf Fixture.env (Fixture.security_module false [Fixture.AUTH_SYS])
                 "failed to get signing key: %s" (errors_New "no private key"))
              () Fixture.unix_args CredentialRequestUnix ([x0c], None))
    as (Hconfig & _ & _ & Hvalid); [reflexivity|].
  split; [exact Hconfig|]. by apply Hvalid.
Defined.

Lemma getCredential_signs_initialised_request_witness :
  @getCredential Fixture.env (Fixture.security_module true [Fixture.AUTH_SYS]) ()
    Fixture.unix_args CredentialRequestUnix
  = Returned (Fixture.security_module true [Fixture.AUTH_SYS],
              ([x00; x01; x02; x03; x03; x02; x01; x01], None))
  ∧ @getCredential MoreFixture.failing_env
      (MoreFixture.failing_module [Fixture.AUTH_SYS; Fixture.AUTH_AM]) ()
      Fixture.am_args CredentialRequestAM
    = Returned
        (@log_Errorf MoreFixture.failing_env
           (MoreFixture.failing_module [Fixture.AUTH_SYS; Fixture.AUTH_AM])
           "failed to get user credential: %s" (errors_New "access manager unreachable"),
         ([xff], None)).
Proof.
  destruct (@getCredential_signs_initialised_request Fixture.env
              (Fixture.security_module true [Fixture.AUTH_SYS])
              (Fixture.security_module true [Fixture.AUTH_SYS])
              () Fixture.unix_args CredentialRequestUnix CredentialRequestUnix [x2a])
    as [Hsigned _]; [reflexivity|apply list_elem_of_here|reflexivity..|].
  destruct (@getCredential_signs_initialised_request MoreFixture.failing_env
              (MoreFixture.failing_module [Fixture.AUTH_SYS; Fixture.AUTH_AM])
              (MoreFixture.failing_module [Fixture.AUTH_SYS; Fixture.AUTH_AM])
              () Fixture.am_args CredentialRequestAM CredentialRequestAM [x2a])
    as [_ Hfailed];
    [reflexivity|apply list_elem_of_further, list_elem_of_here|reflexivity..|].
  split.
  - by apply (Hsigned (Some Fixture.credential)).
  - by apply (Hfailed None (errors_New "access manager unreachable")).
Defined.

Lemma getCredential_init_failure_witness :
  @getCredential MoreFixture.failing_env (MoreFixture.failing_module [Fixture.AUTH_SYS]) ()
    (MoreFixture.args_with Fixture.AUTH_SYS [x03]) CredentialRequestUnix
  = Returned
      (@log_Errorf MoreFixture.failing_env (MoreFixture.failing_module [Fixture.AUTH_SYS])
         "Unable to get credentials for client socket: %s" (errors_New "no such user"),
       ([], Some (errors_New "no such user")))
  ∧ @getCredential MoreFixture.failing_env (MoreFixture.failing_module [Fixture.AUTH_SYS]) ()
      (MoreFixture.args_with Fixture.AUTH_SYS [x01]) CredentialRequestUnix
    = Returned (MoreFixture.failing_module [Fixture.AUTH_SYS], ([xff], None))
  ∧ ∃ p, @getCredential MoreFixture.failing_env
           (MoreFixture.failing_module [Fixture.AUTH_SYS]) ()
           (MoreFixture.args_with Fixture.AUTH_SYS [x02]) CredentialRequestUnix
         = Panicked p.
Proof.
  destruct (@getCredential_init_failure MoreFixture.failing_env
              (MoreFixture.failing_module [Fixture.AUTH_SYS])
              (MoreFixture.failing_module [Fixture.AUTH_SYS]) ()
              (MoreFixture.args_with Fixture.AUTH_SYS [x03]) CredentialRequestUnix
              CredentialRequestUnix [x2a] (errors_New "no such user"))
    as (Hplain & _); [reflexivity|apply list_elem_of_here|reflexivity..|].
  destruct (@getCredential_init_failure MoreFixture.failing_env
              (MoreFixture.failing_module [Fixture.AUTH_SYS])
              (MoreFixture.failing_module [Fixture.AUTH_SYS]) ()
              (MoreFixture.args_with Fixture.AUTH_SYS [x01]) CredentialRequestUnix
              CredentialRequestUnix [x2a] (daos_Status (-1025)))
    as (_ & Hstatus & _); [reflexivity|apply list_elem_of_here|reflexivity..|].
  destruct (@getCredential_init_failure MoreFixture.failing_env
              (MoreFixture.failing_module [Fixture.AUTH_SYS])
              (MoreFixture.failing_module [Fixture.AUTH_SYS]) ()
              (MoreFixture.args_with Fixture.AUTH_SYS [x02]) CredentialRequestUnix
              CredentialRequestUnix [x2a]
              (errors_WithMessage (daos_Status (-1025)) "looking up user"))
    as (_ & _ & Hpanic); [reflexivity|apply list_elem_of_here|reflexivity..|].
  split; [by apply Hplain|]. split; [by apply Hstatus|].
  by apply Hpanic.
Defined.

End IssueSpec.

(** ** The security module: what [HandleCall] checks before it dispatches *)

Module HandleCallSpec.
Import Go Auth Agent Terms MoreTerms.

Section HandleCall.
Context `{Proto} `{Env}.

Lemma getAuthArgs_cases (reqb : bytes) :
  (∃ args, getAuthArgs reqb = (Some args, None))
  ∨ getAuthArgs reqb = (None, Some (drpc_Failure UnmarshalingPayloadFailure)).
Proof.
  unfold getAuthArgs. destruct (length reqb =? 0)%nat; [left; by eexists|].
  destruct (proto_Unmarshal_AuthArgs reqb) as [args [e|]]; [by right|left; by eexists].
Qed.

(** The registry built from [CredentialRequests] binds the flavors of the
    two factories and nothing else. *)
Lemma FlavorToFactory_bindings (FlavorToFactory : gmap Z Factory) :
  generateAuthMap CredentialRequests = Returned FlavorToFactory →
  GetAuthFlavor CredentialRequestUnix ≠ GetAuthFlavor CredentialRequestAM
  ∧ FlavorToFactory !! GetAuthFlavor CredentialRequestUnix = Some CredentialRequestUnix
  ∧ FlavorToFactory !! GetAuthFlavor CredentialRequestAM = Some CredentialRequestAM
  ∧ ∀ k, k ≠ GetAuthFlavor CredentialRequestUnix → k ≠ GetAuthFlavor CredentialRequestAM →
         FlavorToFactory !! k = None.
Proof.
  unfold generateAuthMap. intros Hret.
  destruct (RegistrySpec.generateAuthMap_loop_returned _ _ _ Hret) as [Hnd Hfree].
  destruct (RegistrySpec.generateAuthMap_loop_binds _ _ Hnd Hfree) as (am & Ham & Hbound & Hrest).
  rewrite Hret in Ham. injection Ham as <-. split; [|split; [|split]].
  - apply NoDup_cons in Hnd as [Hfresh _]. intros Heq. apply Hfresh.
    rewrite Heq. apply list_elem_of_here.
  - apply Hbound, list_elem_of_here.
  - apply Hbound, list_elem_of_further, list_elem_of_here.
  - intros k Hu Ha. rewrite Hrest; [done|].
    intros [->|[->|[]%elem_of_nil]%elem_of_cons]%elem_of_cons; done.
Qed.

(** X12.  [HandleCall] decodes the payload and resolves its flavor before
    it looks at the method.  A payload that does not decode gets the
    wrapped unmarshaling failure, and a flavor without a factory gets the
    flavor-not-found error, for every method, the listing of the valid
    flavors included; a method that is none of the module's two always gets
    an error; in all three cases the module is unchanged and there are no
    response bytes. *)
Theorem HandleCall_checks_precede_dispatch (FlavorToFactory : gmap Z Factory)
    (m : SecurityModule) (session : Session) (method : Method) (reqb : bytes) :
  (getAuthArgs reqb = (None, Some (drpc_Failure UnmarshalingPayloadFailure)) →
     HandleCall FlavorToFactory m session method reqb
     = Returned (m, ([], Some (errors_WithMessage (drpc_Failure UnmarshalingPayloadFailure)
                                 "failed to parse request body"))))
  ∧ (∀ args, getAuthArgs reqb = (Some args, None) →
       FlavorToFactory !! AuthArgs_Flavor args = None →
       HandleCall FlavorToFactory m session method reqb
       = Returned (m, ([], Some flavor_not_found)))
  ∧ (∀ id, method = MethodOther id →
       ∃ e, HandleCall FlavorToFactory m session method reqb = Returned (m, ([], Some e))
            ∧ ((∃ args factory, getAuthArgs reqb = (Some args, None)
                  ∧ FlavorToFactory !! AuthArgs_Flavor args = Some factory) →
               e = drpc_Failure UnknownMethodFailure)).
Proof.
  split; [|split].
  - intros Hargs. unfold HandleCall. by rewrite Hargs.
  - intros args Hargs Hnone. unfold HandleCall. by rewrite Hargs, Hnone.
  - intros id ->. unfold HandleCall.
    destruct (getAuthArgs_cases reqb) as [[args Hargs]|Hargs]; rewrite Hargs.
    + destruct (FlavorToFactory !! AuthArgs_Flavor args) as [factory|] eqn:Hfac.
      * eexists. split; [done|]. done.
      * eexists. split; [done|]. intros (args' & factory & [= <-] & Hsome). congruence.
    + eexists. split; [done|]. by intros (args' & factory & [=] & _).
Qed.

(** X13.  With the registry that [generateAuthMap] builds from
    [CredentialRequests], [HandleCall] serves the flavors of the Unix and
    of the access-manager factory and no other: a payload with any other
    flavor gets the flavor-not-found error whatever the method is, and a
    credential request with the access-manager flavor goes to
    [getCredential] with the request of that factory. *)
Theorem HandleCall_serves_two_flavors (FlavorToFactory : gmap Z Factory)
    (m : SecurityModule) (session : Session) (method : Method) (reqb : bytes)
    (args : AuthArgs) :
  generateAuthMap CredentialRequests = Returned FlavorToFactory →
  getAuthArgs reqb = (Some args, None) →
  (AuthArgs_Flavor args ≠ GetAuthFlavor CredentialRequestUnix →
   AuthArgs_Flavor args ≠ GetAuthFlavor CredentialRequestAM →
     HandleCall FlavorToFactory m session method reqb
     = Returned (m, ([], Some flavor_not_found)))
  ∧ (AuthArgs_Flavor args = GetAuthFlavor CredentialRequestAM →
     HandleCall FlavorToFactory m session MethodRequestCredentials reqb
     = getCredential m session args (AllocCredentialRequest CredentialRequestAM))
  ∧ (AuthArgs_Flavor args = GetAuthFlavor CredentialRequestUnix →
     HandleCall FlavorToFactory m session MethodRequestCredentials reqb
     = getCredential m session args (AllocCredentialRequest CredentialRequestUnix)).
Proof.
  intros (Hne & Hunix & Ham & Hrest)%FlavorToFactory_bindings Hargs.
  unfold HandleCall. rewrite Hargs. split; [|split].
  - intros Hu Ha. by rewrite (Hrest _ Hu Ha).
  - intros ->. by rewrite Ham.
  - intros ->. by rewrite Hunix.
Qed.

End HandleCall.

Section Examples.
#[local] Existing Instance Fixture.proto.
#[local] Existing Instance Fixture.env.

Lemma HandleCall_serves_two_flavors_witness :
  HandleCall (<[Fixture.AUTH_AM := CredentialRequestAM]>
                (<[Fixture.AUTH_SYS := CredentialRequestUnix]> ∅))
    (Fixture.security_module true [Fixture.AUTH_SYS]) () MethodRequestValidFlavors [x07]
  = Returned (Fixture.security_module true [Fixture.AUTH_SYS], ([], Some flavor_not_found))
  ∧ HandleCall (<[Fixture.AUTH_AM := CredentialRequestAM]>
                  (<[Fixture.AUTH_SYS := CredentialRequestUnix]> ∅))
      (Fixture.security_module true [Fixture.AUTH_SYS]) () MethodRequestCredentials [x02]
    = Returned (Fixture.security_module true [Fixture.AUTH_SYS],
                ([], Some invalid_authentication_method)).
Proof.
  destruct (HandleCall_serves_two_flavors
              (<[Fixture.AUTH_AM := CredentialRequestAM]>
                 (<[Fixture.AUTH_SYS := CredentialRequestUnix]> ∅))
              (Fixture.security_module true [Fixture.AUTH_SYS]) ()
              MethodRequestValidFlavors [x07] (MoreFixture.args_with 7 []))
    as (Hother & _); [reflexivity..|].
  destruct (HandleCall_serves_two_flavors
              (<[Fixture.AUTH_AM := CredentialRequestAM]>
                 (<[Fixture.AUTH_SYS := CredentialRequestUnix]> ∅))
              (Fixture.security_module true [Fixture.AUTH_SYS]) ()
              MethodRequestCredentials [x02] (MoreFixture.args_with 2 []))
    as (_ & Ham & _); [reflexivity..|].
  split.
  - apply Hother; discriminate.
  - rewrite Ham; reflexivity.
Defined.

End Examples.

End HandleCallSpec.

(** ** The credential cache *)

Module CredentialCacheSpec.
Import Go Auth Agent CredentialCache Terms MoreTerms.

(** X14.  Expiry is permanent: an entry that [IsExpired] reports expired
    at some reading of the clock is reported expired at every later
    reading; a nil entry and an entry without a credential are expired at
    every reading. *)
Theorem IsExpired_monotone (now later : time.Time) (entry : option cachedCredential) :
  now ≤ later →
  (IsExpired now entry = true → IsExpired later entry = true)
  ∧ (entry = None ∨ (∃ c, entry = Some c ∧ cred c = None) → IsExpired now entry = true).
Proof.
  intros Hle. unfold IsExpired, time.IsZero, time.After. split.
  - destruct entry as [c|]; [|done]. destruct (cred c); [|done].
    destruct (expiredAt c =? 0); [done|].
    intros Hnow%Z.ltb_lt. apply Z.ltb_lt. lia.
  - intros [->|(c & -> & ->)]; done.
Qed.

Lemma IsExpired_monotone_witness :
  IsExpired 106 (newCachedCredential 100 "unix:1000" (Some Fixture.credential) 5).1 = true
  ∧ IsExpired 200 (newCachedCredential 100 "unix:1000" (Some Fixture.credential) 5).1 = true.
Proof.
  destruct (IsExpired_monotone 106 200
              (newCachedCredential 100 "unix:1000" (Some Fixture.credential) 5).1)
    as [Hlater _]; [lia|].
  split; [reflexivity|]. apply Hlater. reflexivity.
Defined.

Section Cache.
Context `{Env} `{ItemCache}.

(** X15.  The creation function of [getSignedCredential] returns no error
    only together with an entry that holds the credential the signer
    returned, under the key of the request, expiring one lifetime after the
    reading of the clock at which it ran; a signer that fails, or that
    returns no credential, makes it return an error, so that neither
    reaches the cache without one. *)
Theorem createItem_only_signed_credentials (cc : credentialCache) (req : Request)
    (now : time.Time) :
  (∀ item, createItem cc req now = (item, None) →
     ∃ c, cacheMissFn cc req = (Some c, None)
          ∧ item = Some (Item_cachedCredential
                           (Some {| key := CredReqKey req; cred := Some c;
                                    expiredAt := now + credLifetime cc |})))
  ∧ (∀ c e, cacheMissFn cc req = (c, Some e) → createItem cc req now = (None, Some e))
  ∧ (cacheMissFn cc req = (None, None) →
     createItem cc req now
     = (Some (Item_cachedCredential None), Some (errors_New "credential is nil"))).
Proof.
  unfold createItem. destruct (cacheMissFn cc req) as [[c|] [e|]]; simpl.
  - split; [done|]. split; [by intros ? ? [= <- <-]|done].
  - split; [|done]. intros item [= <-]. by exists c.
  - split; [done|]. split; [by intros ? ? [= <- <-]|done].
  - split; [done|]. done.
Qed.

(** X16.  On a miss, that is when the cache runs the creation function
    at some reading of the clock and hands back what it returned,
    [getSignedCredential] returns the signer's credential when the signer
    returned one, and otherwise an error that wraps the signer's error or
    the nil-credential error; it does not panic. *)
Theorem getSignedCredential_miss (cc : credentialCache) (req : Request)
    (now : time.Time) (c : Cache) :
  GetOrCreate (cache cc) (CredReqKey req) (createItem cc req) = (c, createItem cc req now) →
  (∀ credential, cacheMissFn cc req = (Some credential, None) →
     getSignedCredential cc req = Returned (set_cache cc c, (Some credential, None)))
  ∧ (∀ credential e, cacheMissFn cc req = (credential, Some e) →
       getSignedCredential cc req = Returned (set_cache cc c, (None, Some (cache_failure e))))
  ∧ (cacheMissFn cc req = (None, None) →
     getSignedCredential cc req
     = Returned (set_cache cc c,
                 (None, Some (cache_failure (errors_New "credential is nil"))))).
Proof.
  intros Hmiss. unfold getSignedCredential. rewrite Hmiss. unfold createItem.
  split; [|split].
  - intros credential ->. done.
  - intros credential e ->. done.
  - intros ->. done.
Qed.

End Cache.

Lemma getSignedCredential_miss_witness :
  @getSignedCredential Fixture.env MoreFixture.item_cache MoreFixture.credential_cache
    CredentialRequestUnix
  = Returned (MoreFixture.credential_cache, (Some Fixture.credential, None))
  ∧ @getSignedCredential MoreFixture.failing_env MoreFixture.item_cache
      MoreFixture.failing_cache CredentialRequestAM
    = Returned (MoreFixture.failing_cache,
                (None, Some (cache_failure (errors_New "access manager unreachable")))).
Proof.
  destruct (@getSignedCredential_miss Fixture.env MoreFixture.item_cache
              MoreFixture.credential_cache CredentialRequestUnix 100 ())
    as [Hsigned _]; [reflexivity|].
  destruct (@getSignedCredential_miss MoreFixture.failing_env MoreFixture.item_cache
              MoreFixture.failing_cache CredentialRequestAM 100 ())
    as (_ & Hfailed & _); [reflexivity|].
  split.
  - by apply Hsigned.
  - by apply (Hfailed None).
Defined.

End CredentialCacheSpec.
